(** * hogg2k: distance measures in cosmology

    A shallow embedding of [hogg2k.py] (the formulas of D. Hogg's
    cosmography note, astro-ph/9905116) and the properties of its
    natural-language specification.

    Conventions of the embedding.

    - A Python float is a real number of [R].  Rounding, overflow and the
      IEEE values inf and nan have no counterpart: the model follows the
      control flow, the name resolution and the exceptions of the code, and
      idealises its numerical values.  Where numpy would produce inf or nan
      (a square root of a negative number, a division by a numpy zero) the
      functions of the Reals library return a real number by their own
      convention: a property stated for every cosmology speaks of the code
      on the inputs where its values are finite.
    - A method of [Cosmos] is a computation over the instance: it receives
      [self], and returns an outcome (a value or a raised exception)
      together with the instance as the call leaves it.
    - [numpy]'s elementary functions are the ones of the Reals library.
      [scipy.integrate.quad] is a parameter of the development; what is
      assumed of it is stated where it is used. *)

From Stdlib Require Import Reals Lra Lia String List ClassicalEpsilon.
Import ListNotations.

Local Open Scope R_scope.

(** ** Outcomes of a Python evaluation *)

Inductive exn : Type :=
| NameError (name : string)
| TypeError
| ZeroDivisionError.

Inductive result (A : Type) : Type :=
| Ok (a : A)
| Raise (e : exn).

Arguments Ok {A} a.
Arguments Raise {A} e.

Definition rmap {A B : Type} (f : A -> B) (r : result A) : result B :=
  match r with
  | Ok a => Ok (f a)
  | Raise e => Raise e
  end.

(** ** The instance and computations over it *)

(** [Cosmos.__init__] stores its three arguments as [self.om], [self.ol]
    and [self.h]. *)
Record Cosmos : Type := mkCosmos {
  om : R;
  ol : R;
  h : R
}.

Definition default_omega_matter : R := 0.3.
Definition default_omega_lambda : R := 0.7.
Definition default_h_100 : R := 0.7.

Definition Cosmos_default : Cosmos :=
  mkCosmos default_omega_matter default_omega_lambda default_h_100.

(** A method body: from the instance to an outcome and the instance
    afterwards. *)
Definition M (A : Type) : Type := Cosmos -> result A * Cosmos.

Definition ret {A : Type} (a : A) : M A := fun self => (Ok a, self).

Definition raise {A : Type} (e : exn) : M A := fun self => (Raise e, self).

Definition bind {A B : Type} (m : M A) (k : A -> M B) : M B :=
  fun self =>
    match m self with
    | (Ok a, self') => k a self'
    | (Raise e, self') => (Raise e, self')
    end.

Definition lift {A : Type} (r : result A) : M A := fun self => (r, self).

(** Reading an attribute of [self]. *)
Definition getattr {A : Type} (field : Cosmos -> A) : M A :=
  fun self => (Ok (field self), self).

Declare Scope py_scope.
Delimit Scope py_scope with py.
Notation "x <- m ;; k" := (bind m (fun x => k))
  (at level 61, m at next level, right associativity) : py_scope.
Local Open Scope py_scope.

(** The value a call produces, and the instance it leaves. *)
Definition eval {A : Type} (m : M A) (self : Cosmos) : result A := fst (m self).
Definition exec {A : Type} (m : M A) (self : Cosmos) : Cosmos := snd (m self).

(** A computation that leaves the attributes of [self] as it found them. *)
Definition preserves {A : Type} (m : M A) : Prop :=
  forall self : Cosmos, exec m self = self.

(** ** Module-level names *)

(** What a global name can be bound to. *)
Inductive pyobj : Type :=
| PyNum (r : R)
| PyInf
| PyFunc (f : R -> R).

Definition log10 (x : R) : R := ln x / ln 10.

(** Modelled from the spec: [scipy.constants.c], the CODATA speed of light
    in m/s, a constant of a library outside the repository. *)
Definition scipy_constants_c : R := 299792458.

(** [c = c / 1e3]: speed of light in km/s. *)
Definition c : R := scipy_constants_c / 1e3.

(** [from numpy import arcsin, inf, log10, pi, sin, sinh, sqrt] *)
Definition numpy_imports : list (string * pyobj) :=
  [ ("arcsin", PyFunc asin);
    ("inf", PyInf);
    ("log10", PyFunc log10);
    ("pi", PyNum PI);
    ("sin", PyFunc sin);
    ("sinh", PyFunc sinh);
    ("sqrt", PyFunc sqrt) ]%string.

(** The built-in the module uses. *)
Definition builtins : list (string * pyobj) :=
  [ ("abs", PyFunc Rabs) ]%string.

(** The numeric names of the module namespace, then the built-ins, in the
    order Python searches them. *)
Definition globals : list (string * pyobj) :=
  numpy_imports ++ [ ("c", PyNum c) ]%string ++ builtins.

Fixpoint lookup (name : string) (env : list (string * pyobj)) : option pyobj :=
  match env with
  | [] => None
  | (n, v) :: env' => if String.eqb name n then Some v else lookup name env'
  end.

(** Calling the object a global name is bound to, at call time. *)
Definition call_global (name : string) (x : R) : result R :=
  match lookup name globals with
  | Some (PyFunc f) => Ok (f x)
  | Some _ => Raise TypeError
  | None => Raise (NameError name)
  end.

(** Division of a Python float by a Python float. *)
Definition float_div (x y : R) : result R :=
  if Req_dec_T y 0 then Raise ZeroDivisionError else Ok (x / y).

(** ** [E] *)

Definition E (z om ol : R) : R :=
  sqrt (om * (1 + z) ^ 3 + (1 - om - ol) * (1 + z) ^ 2 + ol).

(** ** [scipy.integrate.quad] *)

(** An integration limit: a float or [integrate.Inf]. *)
Inductive limit : Type :=
| Fin (b : R)
| Inf.

Section Methods.

(** [quad f a b] returns the pair (value, estimate of the absolute error). *)
Variable quad : (R -> R) -> R -> limit -> R * R.

(** ** Accessors *)

Definition H0 : M R :=
  h <- getattr h ;;
  ret (100 * h).

Definition D_H : M R :=
  _H0 <- H0 ;;
  lift (float_div c _H0).

(** ** Distances *)

Definition D_C_integrand (z om ol : R) : R :=
  1 / sqrt (om * (1 + z) ^ 3 + (1 - om - ol) * (1 + z) ^ 2 + ol).

Definition D_C (z : R) : M R :=
  om <- getattr om ;;
  ol <- getattr ol ;;
  h <- getattr h ;;
  let res := quad (fun x => D_C_integrand x om ol) 0 (Fin z) in
  _D_H <- D_H ;;
  ret (_D_H * fst res).

Definition D_M (z : R) : M R :=
  om <- getattr om ;;
  ol <- getattr ol ;;
  h <- getattr h ;;
  _D_C <- D_C z ;;
  _D_H <- D_H ;;
  let ok := 1 - om - ol in
  if Rlt_dec 0 ok then
    ret ((_D_H / sqrt ok) * sinh (sqrt ok * _D_C / _D_H))
  else if Req_dec_T ok 0 then
    ret _D_C
  else
    ret ((_D_H / sqrt (Rabs ok)) * sin (sqrt (Rabs ok) * _D_C / _D_H)).

(** In the flat branch [D_M] is a Python float and the division raises at
    [1 + z = 0]; in the curved branches numpy divides, with inf or nan
    there, outside [R] all the same. *)
Definition D_A (z : R) : M R :=
  _D_M <- D_M z ;;
  lift (float_div _D_M (1 + z)).

Definition D_L (z : R) : M R :=
  _D_M <- D_M z ;;
  ret ((1 + z) * _D_M).

Definition DM (z : R) : M R :=
  _D_L <- D_L z ;;
  ret (5 * log10 (_D_L * 1e6 / 10)).

(** ** Volumes *)

Definition dV_C (z : R) : M R :=
  om <- getattr om ;;
  ol <- getattr ol ;;
  h <- getattr h ;;
  let ok := 1 - om - ol in
  _D_H <- D_H ;;
  _D_A <- D_A z ;;
  ret (_D_H * (1 + z) ^ 2 * _D_A ^ 2 / E z om ol).

Definition V_C (z : R) : M R :=
  om <- getattr om ;;
  ol <- getattr ol ;;
  h <- getattr h ;;
  let ok := 1 - om - ol in
  _D_M <- D_M z ;;
  if Req_dec_T ok 0 then
    ret (4 * PI * _D_M ^ 3 / 3)
  else
    _D_H <- D_H ;;
    let mh := _D_M / _D_H in
    if Rlt_dec 0 ok then
      _arcsinh <- lift (call_global "arcsinh" (mh * sqrt (Rabs ok))) ;;
      ret ((2 * PI * _D_H ^ 3 / ok)
           * (mh * sqrt (1 + ok * mh ^ 2)
              - _arcsinh
                / sqrt (Rabs ok)))
    else
      ret ((2 * PI * _D_H ^ 3 / ok)
           * (mh * sqrt (1 + ok * mh ^ 2)
              - asin (mh * sqrt (Rabs ok))
                / sqrt (Rabs ok))).

(** ** Times *)

Definition t_H : M R :=
  _H0 <- H0 ;;
  _t_H <- lift (float_div 1 _H0) ;;
  let _t_H := _t_H * (1e-3 * 1e6 * 3.0856776e16) in
  let _t_H := _t_H * ((1 / (365.25 * 24 * 3600)) * 1e-9) in
  ret _t_H.

Definition t_integrand (z om ol : R) : R :=
  1 / (1 + z) / sqrt (om * (1 + z) ^ 3
                      + (1 - om - ol) * (1 + z) ^ 2
                      + ol).

Definition t_L (z : R) : M R :=
  om <- getattr om ;;
  ol <- getattr ol ;;
  h <- getattr h ;;
  let res := quad (fun x => t_integrand x om ol) 0 (Fin z) in
  _t_H <- t_H ;;
  ret (_t_H * fst res).

Definition t (z : R) : M R :=
  om <- getattr om ;;
  ol <- getattr ol ;;
  h <- getattr h ;;
  let res := quad (fun x => t_integrand x om ol) z Inf in
  _t_H <- t_H ;;
  ret (_t_H * fst res).

(** ** Intersection probability *)

Definition dP (z : R) : M R :=
  om <- getattr om ;;
  ol <- getattr ol ;;
  h <- getattr h ;;
  _D_H <- D_H ;;
  ret (_D_H * (1 + z) ^ 2 / E z om ol).

(** ** The query interface *)

Inductive query : Type :=
| Q_H0 | Q_D_H | Q_t_H
| Q_D_C | Q_D_M | Q_D_A | Q_D_L | Q_DM
| Q_dV_C | Q_V_C | Q_t_L | Q_t | Q_dP.

(** The accessors are properties and take no redshift. *)
Definition call (q : query) (z : R) : M R :=
  match q with
  | Q_H0 => H0
  | Q_D_H => D_H
  | Q_t_H => t_H
  | Q_D_C => D_C z
  | Q_D_M => D_M z
  | Q_D_A => D_A z
  | Q_D_L => D_L z
  | Q_DM => DM z
  | Q_dV_C => dV_C z
  | Q_V_C => V_C z
  | Q_t_L => t_L z
  | Q_t => t z
  | Q_dP => dP z
  end.

End Methods.

(** ** Integrals *)

(** [f] is integrable on every [[a, b]] with [a <= b]. *)
Definition integrable_from (f : R -> R) (a : R) : Type :=
  forall b : R, a <= b -> Riemann_integrable f a b.

(** The integral of [f] over [[a, +oo)] converges to [L]. *)
Definition improper_integral (f : R -> R) (a : R)
    (pr : integrable_from f a) (L : R) : Prop :=
  forall eps : R, 0 < eps ->
    exists B : R, a <= B /\
      (forall (b : R) (Hb : a <= b), B <= b ->
        Rabs (RiemannInt (pr b Hb) - L) < eps).

(** The idealisation of [quad]: its value is the integral, wherever the
    integral exists. *)
Definition quad_exact (quad : (R -> R) -> R -> limit -> R * R) : Prop :=
  (forall (f : R -> R) (a b : R) (pr : Riemann_integrable f a b),
      fst (quad f a (Fin b)) = RiemannInt pr)
  /\ (forall (f : R -> R) (a : R) (pr : integrable_from f a) (L : R),
        improper_integral f a pr L -> fst (quad f a Inf) = L).

(** The integral as a function of the integrand and the limits. *)
Definition is_integral (f : R -> R) (a : R) (b : limit) (I : R) : Prop :=
  match b with
  | Fin b => exists pr : Riemann_integrable f a b, RiemannInt pr = I
  | Inf => exists pr : integrable_from f a, improper_integral f a pr I
  end.

(** An integrator that is exact, with error estimate zero. *)
Definition ideal_quad (f : R -> R) (a : R) (b : limit) : R * R :=
  (epsilon (inhabits 0) (is_integral f a b), 0).

(** The radicand of [E], positive for the cosmologies with a big bang. *)
Definition radicand (self : Cosmos) (x : R) : R :=
  om self * (1 + x) ^ 3 + (1 - om self - ol self) * (1 + x) ^ 2 + ol self.

(** Sample instances. *)
Definition Cosmos_open : Cosmos := mkCosmos 0.3 0 0.7.
Definition Cosmos_closed : Cosmos := mkCosmos 0.5 1 0.7.
Definition Cosmos_static : Cosmos := mkCosmos 0.3 0.7 0.
Definition Cosmos_Milne : Cosmos := mkCosmos 0 0 1.
Definition Cosmos_h1 : Cosmos :=
  mkCosmos default_omega_matter default_omega_lambda 1.

(** * Properties *)

(** ** Outcomes and the frame of a computation *)

Lemma float_div_ok (x y : R) : y <> 0 -> float_div x y = Ok (x / y).
Proof.
  intros Hy. unfold float_div.
  destruct (Req_dec_T y 0) as [Hz | _]; [contradiction | reflexivity].
Qed.

Lemma float_div_zero (x : R) : float_div x 0 = Raise ZeroDivisionError.
Proof.
  unfold float_div.
  destruct (Req_dec_T 0 0) as [_ | Hn]; [reflexivity | now elim Hn].
Qed.

Lemma preserves_ret {A : Type} (a : A) : preserves (ret a).
Proof. intros self. reflexivity. Qed.

Lemma preserves_raise {A : Type} (e : exn) : preserves (@raise A e).
Proof. intros self. reflexivity. Qed.

Lemma preserves_lift {A : Type} (r : result A) : preserves (lift r).
Proof. intros self. reflexivity. Qed.

Lemma preserves_getattr {A : Type} (field : Cosmos -> A) :
  preserves (getattr field).
Proof. intros self. reflexivity. Qed.

Lemma preserves_bind {A B : Type} (m : M A) (k : A -> M B) :
  preserves m -> (forall a : A, preserves (k a)) -> preserves (bind m k).
Proof.
  intros Hm Hk self. unfold exec, bind.
  specialize (Hm self). unfold exec in Hm.
  destruct (m self) as [[a | e] self']; simpl in Hm; subst self'.
  - apply Hk.
  - reflexivity.
Qed.

(** A computation that preserves [self] is determined by its value. *)
Lemma preserves_run {A : Type} (m : M A) (self : Cosmos) :
  preserves m -> m self = (eval m self, self).
Proof.
  intros Hm. specialize (Hm self). unfold exec, eval in *.
  destruct (m self) as [r self']; simpl in *. now subst.
Qed.

Lemma eval_bind {A B : Type} (m : M A) (k : A -> M B) (self : Cosmos) :
  preserves m ->
  eval (bind m k) self =
  match eval m self with
  | Ok a => eval (k a) self
  | Raise e => Raise e
  end.
Proof.
  intros Hm. unfold eval at 1. unfold bind.
  rewrite (preserves_run m self Hm).
  destruct (eval m self); reflexivity.
Qed.

Lemma eval_ret {A : Type} (a : A) (self : Cosmos) : eval (ret a) self = Ok a.
Proof. reflexivity. Qed.

Lemma eval_lift {A : Type} (r : result A) (self : Cosmos) :
  eval (lift r) self = r.
Proof. reflexivity. Qed.

Lemma eval_getattr {A : Type} (field : Cosmos -> A) (self : Cosmos) :
  eval (getattr field) self = Ok (field self).
Proof. reflexivity. Qed.

(** Splits a method body along its binds and branches. *)
Ltac frame :=
  repeat first
    [ apply preserves_ret
    | apply preserves_raise
    | apply preserves_lift
    | apply preserves_getattr
    | apply preserves_bind; [ | intros ? ]
    | match goal with
      | |- preserves (if ?b then _ else _) => destruct b
      | |- preserves (let _ := _ in _) => cbv zeta
      end
    | assumption ].

Section Frame.

Variable quad : (R -> R) -> R -> limit -> R * R.

Lemma preserves_H0 : preserves H0.
Proof. unfold H0. frame. Qed.

Lemma preserves_D_H : preserves D_H.
Proof. unfold D_H. pose proof preserves_H0. frame. Qed.

Lemma preserves_t_H : preserves t_H.
Proof. unfold t_H. pose proof preserves_H0. frame. Qed.

Lemma preserves_D_C (z : R) : preserves (D_C quad z).
Proof. unfold D_C. pose proof preserves_D_H. frame. Qed.

Lemma preserves_D_M (z : R) : preserves (D_M quad z).
Proof.
  unfold D_M. pose proof preserves_D_H. pose proof (preserves_D_C z). frame.
Qed.

Lemma preserves_D_A (z : R) : preserves (D_A quad z).
Proof. unfold D_A. pose proof (preserves_D_M z). frame. Qed.

Lemma preserves_D_L (z : R) : preserves (D_L quad z).
Proof. unfold D_L. pose proof (preserves_D_M z). frame. Qed.

Lemma preserves_DM (z : R) : preserves (DM quad z).
Proof. unfold DM. pose proof (preserves_D_L z). frame. Qed.

Lemma preserves_dV_C (z : R) : preserves (dV_C quad z).
Proof.
  unfold dV_C. pose proof preserves_D_H. pose proof (preserves_D_A z). frame.
Qed.

Lemma preserves_V_C (z : R) : preserves (V_C quad z).
Proof.
  unfold V_C. pose proof preserves_D_H. pose proof (preserves_D_M z). frame.
Qed.

Lemma preserves_t_L (z : R) : preserves (t_L quad z).
Proof. unfold t_L. pose proof preserves_t_H. frame. Qed.

Lemma preserves_t (z : R) : preserves (t quad z).
Proof. unfold t. pose proof preserves_t_H. frame. Qed.

Lemma preserves_dP (z : R) : preserves (dP z).
Proof. unfold dP. pose proof preserves_D_H. frame. Qed.

Lemma preserves_call (q : query) (z : R) : preserves (call quad q z).
Proof.
  destruct q; simpl;
    auto using preserves_H0, preserves_D_H, preserves_t_H, preserves_D_C,
      preserves_D_M, preserves_D_A, preserves_D_L, preserves_DM,
      preserves_dV_C, preserves_V_C, preserves_t_L, preserves_t, preserves_dP.
Qed.

End Frame.

Create HintDb frame.
#[global] Hint Resolve preserves_ret preserves_lift preserves_getattr
  preserves_H0 preserves_D_H preserves_t_H preserves_D_C preserves_D_M
  preserves_D_A preserves_D_L preserves_DM preserves_dV_C preserves_V_C
  preserves_t_L preserves_t preserves_dP : frame.

(** Evaluates the leading binds of a method body. *)
Ltac eval_body :=
  repeat first
    [ rewrite eval_bind by auto with frame
    | rewrite eval_getattr
    | rewrite eval_ret
    | rewrite eval_lift
    | progress cbv beta iota zeta ].

(** Two computations that preserve [self] and agree on the value agree. *)
Lemma run_ext {A : Type} (m1 m2 : M A) (self : Cosmos) :
  preserves m1 -> preserves m2 -> eval m1 self = eval m2 self ->
  m1 self = m2 self.
Proof.
  intros H1 H2 He.
  rewrite (preserves_run m1 self H1), (preserves_run m2 self H2), He.
  reflexivity.
Qed.

(** ** Name resolution *)

Lemma call_sqrt (x : R) : call_global "sqrt" x = Ok (sqrt x).
Proof. reflexivity. Qed.

Lemma call_sin (x : R) : call_global "sin" x = Ok (sin x).
Proof. reflexivity. Qed.

Lemma call_sinh (x : R) : call_global "sinh" x = Ok (sinh x).
Proof. reflexivity. Qed.

Lemma call_arcsin (x : R) : call_global "arcsin" x = Ok (asin x).
Proof. reflexivity. Qed.

Lemma call_log10 (x : R) : call_global "log10" x = Ok (log10 x).
Proof. reflexivity. Qed.

Lemma call_abs (x : R) : call_global "abs" x = Ok (Rabs x).
Proof. reflexivity. Qed.

Lemma lookup_pi : lookup "pi" globals = Some (PyNum PI).
Proof. reflexivity. Qed.

(** [arcsinh] is bound neither by the imports nor as a built-in. *)
Lemma call_arcsinh_unbound (x : R) :
  call_global "arcsinh" x = Raise (NameError "arcsinh").
Proof. reflexivity. Qed.

(** ** The accessors *)

Lemma H0_nonzero (self : Cosmos) : h self <> 0 -> 100 * h self <> 0.
Proof. intros Hh. lra. Qed.

Lemma eval_H0 (self : Cosmos) : eval H0 self = Ok (100 * h self).
Proof. reflexivity. Qed.

Lemma eval_D_H (self : Cosmos) : eval D_H self = float_div c (100 * h self).
Proof. reflexivity. Qed.

Lemma eval_D_H_ok (self : Cosmos) :
  h self <> 0 -> eval D_H self = Ok (c / (100 * h self)).
Proof. intros Hh. rewrite eval_D_H. apply float_div_ok, H0_nonzero, Hh. Qed.

Lemma eval_D_H_zero (self : Cosmos) :
  h self = 0 -> eval D_H self = Raise ZeroDivisionError.
Proof. intros Hh. rewrite eval_D_H, Hh, Rmult_0_r. apply float_div_zero. Qed.

Lemma eval_t_H (self : Cosmos) :
  eval t_H self =
  rmap (fun x => x * (1e-3 * 1e6 * 3.0856776e16)
                 * ((1 / (365.25 * 24 * 3600)) * 1e-9))
       (float_div 1 (100 * h self)).
Proof.
  unfold t_H. eval_body. rewrite eval_H0. eval_body.
  destruct (float_div 1 (100 * h self)); reflexivity.
Qed.

Lemma eval_t_H_zero (self : Cosmos) :
  h self = 0 -> eval t_H self = Raise ZeroDivisionError.
Proof.
  intros Hh. rewrite eval_t_H, Hh, Rmult_0_r, float_div_zero. reflexivity.
Qed.

Section Distances.

Variable quad : (R -> R) -> R -> limit -> R * R.

Lemma eval_D_C (z : R) (self : Cosmos) :
  eval (D_C quad z) self =
  rmap (fun dh =>
          dh * fst (quad (fun x => D_C_integrand x (om self) (ol self))
                         0 (Fin z)))
       (eval D_H self).
Proof.
  unfold D_C. eval_body. destruct (eval D_H self); reflexivity.
Qed.

Lemma eval_D_M (z : R) (self : Cosmos) :
  eval (D_M quad z) self =
  match eval (D_C quad z) self with
  | Ok dc =>
      match eval D_H self with
      | Ok dh =>
          let ok := 1 - om self - ol self in
          if Rlt_dec 0 ok then
            Ok ((dh / sqrt ok) * sinh (sqrt ok * dc / dh))
          else if Req_dec_T ok 0 then
            Ok dc
          else
            Ok ((dh / sqrt (Rabs ok)) * sin (sqrt (Rabs ok) * dc / dh))
      | Raise e => Raise e
      end
  | Raise e => Raise e
  end.
Proof.
  unfold D_M. eval_body.
  destruct (eval (D_C quad z) self); [ | reflexivity].
  eval_body. destruct (eval D_H self); [ | reflexivity].
  destruct (Rlt_dec _ _); [reflexivity | ].
  destruct (Req_dec_T _ _); reflexivity.
Qed.

Lemma eval_D_M_flat (z : R) (self : Cosmos) :
  1 - om self - ol self = 0 ->
  eval (D_M quad z) self = eval (D_C quad z) self.
Proof.
  intros Hok. rewrite eval_D_M, eval_D_C.
  destruct (eval D_H self) as [dh | e]; cbn [rmap]; [ | reflexivity].
  cbv zeta.
  destruct (Rlt_dec 0 (1 - om self - ol self)) as [Hlt | _]; [lra | ].
  destruct (Req_dec_T (1 - om self - ol self) 0) as [_ | Hn];
    [reflexivity | contradiction].
Qed.

(** With a nonzero Hubble parameter the distances evaluate. *)
Lemma eval_D_C_ok (z : R) (self : Cosmos) :
  h self <> 0 -> exists dc : R, eval (D_C quad z) self = Ok dc.
Proof.
  intros Hh. rewrite eval_D_C, (eval_D_H_ok self Hh). cbn [rmap]. eauto.
Qed.

Lemma eval_D_M_ok (z : R) (self : Cosmos) :
  h self <> 0 -> exists dm : R, eval (D_M quad z) self = Ok dm.
Proof.
  intros Hh. rewrite eval_D_M.
  destruct (eval_D_C_ok z self Hh) as [dc ->].
  rewrite (eval_D_H_ok self Hh). cbv zeta.
  destruct (Rlt_dec _ _); [eauto | ].
  destruct (Req_dec_T _ _); eauto.
Qed.

Lemma eval_D_C_zero (z : R) (self : Cosmos) :
  h self = 0 -> eval (D_C quad z) self = Raise ZeroDivisionError.
Proof. intros Hh. rewrite eval_D_C, (eval_D_H_zero self Hh). reflexivity. Qed.

Lemma eval_D_M_zero (z : R) (self : Cosmos) :
  h self = 0 -> eval (D_M quad z) self = Raise ZeroDivisionError.
Proof. intros Hh. rewrite eval_D_M, (eval_D_C_zero z self Hh). reflexivity. Qed.

(** C3. In a flat cosmology (Omega_m + Omega_Lambda = 1) the transverse
    comoving distance is the line-of-sight comoving distance itself, at every
    redshift; the flat branch is taken at Omega_k = 0 only: for every
    Omega_k > 0 the sinh formula is evaluated and for every Omega_k < 0 the
    sin formula, however close to zero Omega_k is. *)
Theorem D_M_flat_exact (self : Cosmos) (z : R) :
  (om self + ol self = 1 -> D_M quad z self = D_C quad z self)
  /\ (0 < 1 - om self - ol self ->
      D_M quad z self =
      (_D_C <- D_C quad z ;;
       _D_H <- D_H ;;
       let ok := 1 - om self - ol self in
       ret ((_D_H / sqrt ok) * sinh (sqrt ok * _D_C / _D_H))) self)
  /\ (1 - om self - ol self < 0 ->
      D_M quad z self =
      (_D_C <- D_C quad z ;;
       _D_H <- D_H ;;
       let ok := 1 - om self - ol self in
       ret ((_D_H / sqrt (Rabs ok)) * sin (sqrt (Rabs ok) * _D_C / _D_H)))
        self).
Proof.
  repeat split; intros Hok.
  - apply run_ext; auto with frame. apply eval_D_M_flat. lra.
  - apply run_ext; auto with frame.
    + frame; auto with frame.
    + rewrite eval_D_M. eval_body.
      destruct (eval (D_C quad z) self) as [dc | e]; [ | reflexivity].
      eval_body.
      destruct (eval D_H self) as [dh | e]; [ | reflexivity].
      destruct (Rlt_dec 0 (1 - om self - ol self)) as [_ | Hn];
        [reflexivity | contradiction].
  - apply run_ext; auto with frame.
    + frame; auto with frame.
    + rewrite eval_D_M. eval_body.
      destruct (eval (D_C quad z) self) as [dc | e]; [ | reflexivity].
      eval_body.
      destruct (eval D_H self) as [dh | e]; [ | reflexivity].
      destruct (Rlt_dec 0 (1 - om self - ol self)) as [Hlt | _]; [lra | ].
      destruct (Req_dec_T (1 - om self - ol self) 0) as [Hz | _]; [lra | ].
      reflexivity.
Qed.

(** C4. For every cosmology and every redshift z >= 0 the luminosity
    distance is (1+z)^2 times the angular diameter distance, in each curvature
    branch; when the Hubble parameter is zero both calls raise the same
    exception. *)
Theorem D_L_is_D_A_scaled (self : Cosmos) (z : R) :
  0 <= z ->
  eval (D_L quad z) self =
  rmap (fun _D_A => (1 + z) ^ 2 * _D_A) (eval (D_A quad z) self)
  /\ (h self <> 0 ->
      exists _D_A : R,
        eval (D_A quad z) self = Ok _D_A
        /\ eval (D_L quad z) self = Ok ((1 + z) ^ 2 * _D_A)).
Proof.
  intros Hz.
  assert (Heq : eval (D_L quad z) self =
                rmap (fun _D_A => (1 + z) ^ 2 * _D_A)
                     (eval (D_A quad z) self)).
  { unfold D_L, D_A. eval_body.
    destruct (eval (D_M quad z) self) as [dm | e]; [ | reflexivity].
    eval_body. rewrite float_div_ok by lra. cbn [rmap].
    f_equal. field. lra. }
  split; [exact Heq | ].
  intros Hh. rewrite Heq. unfold D_A. eval_body.
  destruct (eval_D_M_ok z self Hh) as [dm ->]. eval_body.
  rewrite float_div_ok by lra. cbn [rmap]. eauto.
Qed.

End Distances.

(** ** Volumes *)

Lemma eval_dP (z : R) (self : Cosmos) :
  eval (dP z) self =
  rmap (fun dh => dh * (1 + z) ^ 2 / E z (om self) (ol self)) (eval D_H self).
Proof.
  unfold dP. eval_body. destruct (eval D_H self); reflexivity.
Qed.

Section Volumes.

Variable quad : (R -> R) -> R -> limit -> R * R.

(** C1. In an open cosmology (Omega_k > 0) with a nonzero Hubble parameter,
    [V_C] does not evaluate: the open branch applies [arcsinh], a name the
    module never binds, and the call raises [NameError] at every redshift,
    where the formula of the specification asks for the real hyperbolic
    arcsine. *)
Theorem V_C_open_raises_NameError (self : Cosmos) (z : R) :
  h self <> 0 -> 0 < 1 - om self - ol self ->
  eval (V_C quad z) self = Raise (NameError "arcsinh").
Proof.
  intros Hh Hok. unfold V_C. eval_body.
  destruct (eval_D_M_ok quad z self Hh) as [dm ->]. eval_body.
  destruct (Req_dec_T (1 - om self - ol self) 0) as [Hz | _]; [lra | ].
  eval_body. rewrite (eval_D_H_ok self Hh). eval_body.
  destruct (Rlt_dec 0 (1 - om self - ol self)) as [_ | Hn]; [ | contradiction].
  eval_body. rewrite call_arcsinh_unbound. reflexivity.
Qed.

(** C6. In a closed cosmology (Omega_k < 0), at every redshift z >= 0,
    [V_C] is (2 pi D_H^3 / Omega_k) (m sqrt(1 + Omega_k m^2)
    - arcsin(m sqrt|Omega_k|) / sqrt|Omega_k|) with m = D_M / D_H: the
    leading factor divides by Omega_k itself, the arcsine and the trailing
    divisor use |Omega_k|.  With a nonzero Hubble parameter the call
    returns. *)
Theorem V_C_closed (self : Cosmos) (z : R) :
  1 - om self - ol self < 0 -> 0 <= z ->
  V_C quad z self =
  (_D_M <- D_M quad z ;;
   _D_H <- D_H ;;
   let ok := 1 - om self - ol self in
   let m := _D_M / _D_H in
   ret ((2 * PI * _D_H ^ 3 / ok)
        * (m * sqrt (1 + ok * m ^ 2)
           - asin (m * sqrt (Rabs ok)) / sqrt (Rabs ok)))) self
  /\ (h self <> 0 -> exists v : R, eval (V_C quad z) self = Ok v).
Proof.
  intros Hok Hz.
  assert (Hev : eval (V_C quad z) self =
    eval (_D_M <- D_M quad z ;;
          _D_H <- D_H ;;
          let ok := 1 - om self - ol self in
          let m := _D_M / _D_H in
          ret ((2 * PI * _D_H ^ 3 / ok)
               * (m * sqrt (1 + ok * m ^ 2)
                  - asin (m * sqrt (Rabs ok)) / sqrt (Rabs ok)))) self).
  { unfold V_C. eval_body.
    destruct (eval (D_M quad z) self) as [dm | e]; [ | reflexivity].
    eval_body.
    destruct (Req_dec_T (1 - om self - ol self) 0) as [Hz0 | _]; [lra | ].
    eval_body.
    destruct (eval D_H self) as [dh | e]; [ | reflexivity].
    eval_body.
    destruct (Rlt_dec 0 (1 - om self - ol self)) as [Hlt | _]; [lra | ].
    reflexivity. }
  split.
  - apply run_ext; auto with frame. frame; auto with frame.
  - intros Hh. rewrite Hev. eval_body.
    destruct (eval_D_M_ok quad z self Hh) as [dm ->]. eval_body.
    rewrite (eval_D_H_ok self Hh). eval_body. eauto.
Qed.

(** C10. For every cosmology and every redshift z >= 0 the comoving volume
    element is dP(z) D_A(z)^2; dP(0) is the Hubble distance, E(0) being 1
    whatever the density parameters. *)
Theorem dV_C_is_dP_D_A_sqr (self : Cosmos) (z : R) :
  0 <= z ->
  eval (dV_C quad z) self =
  eval (_dP <- dP z ;; _D_A <- D_A quad z ;; ret (_dP * _D_A ^ 2)) self
  /\ dP 0 self = D_H self
  /\ E 0 (om self) (ol self) = 1.
Proof.
  intros Hz.
  assert (HE : E 0 (om self) (ol self) = 1).
  { unfold E.
    replace (om self * (1 + 0) ^ 3 + (1 - om self - ol self) * (1 + 0) ^ 2
             + ol self) with 1 by ring.
    apply sqrt_1. }
  repeat split.
  - unfold dV_C. eval_body. rewrite eval_dP.
    destruct (eval D_H self) as [dh | e]; [ | reflexivity].
    cbn [rmap]. eval_body.
    destruct (eval (D_A quad z) self) as [da | e]; [ | reflexivity].
    eval_body. f_equal. unfold Rdiv. ring.
  - apply run_ext; auto with frame.
    rewrite eval_dP, HE.
    destruct (eval D_H self) as [dh | e]; [ | reflexivity].
    cbn [rmap]. f_equal. field.
  - exact HE.
Qed.

(** C7. Whenever the luminosity distance D_L(z) is positive, the distance
    modulus is 5 log10(D_L(z) 1e6 / 10): the distance in parsecs over the
    10 pc reference, on the decimal logarithmic scale. *)
Theorem DM_is_log10_of_D_L (self : Cosmos) (z : R) (_D_L : R) :
  eval (D_L quad z) self = Ok _D_L -> 0 < _D_L ->
  exists mu : R,
    eval (DM quad z) self = Ok mu
    /\ mu = 5 * log10 (_D_L * 1e6 / 10)
    /\ 10 * Rpower 10 (mu / 5) = _D_L * 1e6.
Proof.
  intros HL Hpos. exists (5 * log10 (_D_L * 1e6 / 10)).
  split; [ | split; [reflexivity | ] ].
  - unfold DM. eval_body. rewrite HL. reflexivity.
  - assert (Hln : 0 < ln 10).
    { rewrite <- ln_1. apply ln_increasing; lra. }
    unfold log10, Rpower.
    replace (5 * (ln (_D_L * 1e6 / 10) / ln 10) / 5 * ln 10)
      with (ln (_D_L * 1e6 / 10)) by (field; lra).
    rewrite exp_ln by lra. field.
Qed.

(** C9. No query assigns to an attribute: after any of them the instance
    holds the parameters it held before, a second call returns what the first
    returned, and the value depends on the instance through its three
    parameters only. *)
Theorem queries_pure (q : query) (z : R) (self : Cosmos) :
  exec (call quad q z) self = self
  /\ eval (call quad q z) (exec (call quad q z) self)
     = eval (call quad q z) self
  /\ (forall self' : Cosmos,
        om self' = om self -> ol self' = ol self -> h self' = h self ->
        eval (call quad q z) self' = eval (call quad q z) self).
Proof.
  assert (Hp : exec (call quad q z) self = self) by apply preserves_call.
  repeat split.
  - exact Hp.
  - rewrite Hp. reflexivity.
  - intros [om' ol' h'] Hom Hol Hh. destruct self as [om0 ol0 h0].
    simpl in Hom, Hol, Hh. subst. reflexivity.
Qed.

(** C2, as the code has it.  With h100 = 0 the Hubble constant is 0, and
    [D_H] and [t_H] raise [ZeroDivisionError]: both divide a Python float
    by it.  The exception leaves every other query as well; none returns
    infinity. *)
Theorem h_zero_raises_ZeroDivisionError (self : Cosmos) (z : R) :
  h self = 0 ->
  eval H0 self = Ok 0
  /\ eval D_H self = Raise ZeroDivisionError
  /\ eval t_H self = Raise ZeroDivisionError
  /\ (forall q : query, q <> Q_H0 ->
        eval (call quad q z) self = Raise ZeroDivisionError).
Proof.
  intros Hh.
  assert (HDH := eval_D_H_zero self Hh).
  assert (HtH := eval_t_H_zero self Hh).
  assert (HDM := eval_D_M_zero quad z self Hh).
  assert (HDL : eval (D_L quad z) self = Raise ZeroDivisionError).
  { unfold D_L. eval_body. rewrite HDM. reflexivity. }
  repeat split; trivial.
  - rewrite eval_H0, Hh. f_equal. ring.
  - intros q Hq. destruct q; try contradiction; simpl; trivial.
    + apply eval_D_C_zero, Hh.
    + unfold D_A. eval_body. rewrite HDM. reflexivity.
    + unfold DM. eval_body. rewrite HDL. reflexivity.
    + unfold dV_C. eval_body. rewrite HDH. reflexivity.
    + unfold V_C. eval_body. rewrite HDM. reflexivity.
    + unfold t_L. eval_body. rewrite HtH. reflexivity.
    + unfold t. eval_body. rewrite HtH. reflexivity.
    + unfold dP. eval_body. rewrite HDH. reflexivity.
Qed.

End Volumes.

(** C2, as stated, fails on the instance with h100 = 0: neither [D_H] nor
    [t_H] returns a value there. *)
Lemma D_H_static_raises :
  eval D_H Cosmos_static = Raise ZeroDivisionError
  /\ eval t_H Cosmos_static = Raise ZeroDivisionError
  /\ ~ (exists v : R, eval D_H Cosmos_static = Ok v)
  /\ ~ (exists v : R, eval t_H Cosmos_static = Ok v).
Proof.
  assert (H1 : eval D_H Cosmos_static = Raise ZeroDivisionError)
    by (apply eval_D_H_zero; reflexivity).
  assert (H2 : eval t_H Cosmos_static = Raise ZeroDivisionError)
    by (apply eval_t_H_zero; reflexivity).
  repeat split; trivial.
  - intros [v Hv]. rewrite H1 in Hv. discriminate.
  - intros [v Hv]. rewrite H2 in Hv. discriminate.
Qed.

(** ** Integrands and integrals *)

Lemma t_integrand_continuous (self : Cosmos) (x : R) :
  0 <= x -> 0 < radicand self x ->
  continuity_pt (fun x => t_integrand x (om self) (ol self)) x.
Proof.
  intros Hx Hr. unfold t_integrand, radicand in *.
  reg; [lra | lra | apply Rgt_not_eq, sqrt_lt_R0; lra].
Qed.

Lemma D_C_integrand_continuous (self : Cosmos) (x : R) :
  0 < radicand self x ->
  continuity_pt (fun x => D_C_integrand x (om self) (ol self)) x.
Proof.
  intros Hr. unfold D_C_integrand, radicand in *.
  reg; [lra | apply Rgt_not_eq, sqrt_lt_R0; lra].
Qed.

Lemma t_integrand_pos (self : Cosmos) (x : R) :
  0 <= x -> 0 < radicand self x -> 0 < t_integrand x (om self) (ol self).
Proof.
  intros Hx Hr. unfold t_integrand, radicand in *.
  apply Rdiv_lt_0_compat; [ | apply sqrt_lt_R0; lra].
  apply Rdiv_lt_0_compat; lra.
Qed.

Lemma D_C_integrand_pos (self : Cosmos) (x : R) :
  0 < radicand self x -> 0 < D_C_integrand x (om self) (ol self).
Proof.
  intros Hr. unfold D_C_integrand, radicand in *.
  apply Rdiv_lt_0_compat; [lra | apply sqrt_lt_R0; lra].
Qed.

(** The integral of a continuous positive function over a proper interval
    is positive. *)
Lemma RiemannInt_pos (f : R -> R) (a b : R) (pr : Riemann_integrable f a b) :
  a < b ->
  (forall x : R, a <= x <= b -> continuity_pt f x) ->
  (forall x : R, a <= x <= b -> 0 < f x) ->
  0 < RiemannInt pr.
Proof.
  intros Hab Hc Hp.
  destruct (continuity_ab_min f a b (Rlt_le _ _ Hab) Hc) as [mn [Hmn Hin]].
  destruct (continuity_ab_maj f a b (Rlt_le _ _ Hab) Hc) as [mx [Hmx _]].
  assert (Hb : f mn * (b - a) <= RiemannInt pr <= f mx * (b - a)).
  { apply RiemannInt_const_bound; [lra | ].
    intros x Hx. split; [apply Hmn | apply Hmx]; lra. }
  specialize (Hp mn Hin).
  assert (0 < f mn * (b - a)) by (apply Rmult_lt_0_compat; lra).
  lra.
Qed.

(** The fundamental theorem of calculus, for a continuous integrand. *)
Lemma RiemannInt_antiderivative (f G : R -> R) (a b : R)
    (pr : Riemann_integrable f a b) :
  (forall x : R, a <= x <= b -> continuity_pt f x) ->
  antiderivative f G a b ->
  RiemannInt pr = G b - G a.
Proof.
  intros C0 HG. assert (Hab : a <= b) by apply HG.
  rewrite (RiemannInt_P20 Hab (FTC_P1 Hab C0) pr).
  destruct (antiderivative_Ucte f _ _ a b (RiemannInt_P29 Hab C0) HG)
    as [k Hk].
  rewrite (Hk a), (Hk b) by lra. ring.
Qed.

(** An improper integral has one value. *)
Lemma improper_integral_unique (f : R -> R) (a : R)
    (pr1 pr2 : integrable_from f a) (L1 L2 : R) :
  improper_integral f a pr1 L1 -> improper_integral f a pr2 L2 -> L1 = L2.
Proof.
  intros H1 H2. apply cond_eq. intros eps Heps.
  destruct (H1 (eps / 2)) as [B1 [HB1 C1]]; [lra | ].
  destruct (H2 (eps / 2)) as [B2 [HB2 C2]]; [lra | ].
  assert (Hb : a <= Rmax B1 B2).
  { apply Rle_trans with B1; [exact HB1 | apply Rmax_l]. }
  specialize (C1 _ Hb (Rmax_l _ _)). specialize (C2 _ Hb (Rmax_r _ _)).
  rewrite (RiemannInt_P5 (pr2 _ Hb) (pr1 _ Hb)) in C2.
  replace (L1 - L2)
    with ((RiemannInt (pr1 _ Hb) - L2) - (RiemannInt (pr1 _ Hb) - L1))
    by ring.
  eapply Rle_lt_trans; [apply Rabs_triang | ].
  rewrite Rabs_Ropp. lra.
Qed.

(** The tail of a convergent integral converges, to what is left. *)
Lemma improper_integral_tail (f : R -> R) (z : R)
    (pr0 : integrable_from f 0) (L : R) (Hz : 0 <= z) :
  improper_integral f 0 pr0 L ->
  exists prz : integrable_from f z,
    improper_integral f z prz (L - RiemannInt (pr0 z Hz)).
Proof.
  intros HL.
  assert (prz : integrable_from f z).
  { intros b Hb. apply RiemannInt_P23 with 0.
    - apply pr0. lra.
    - split; assumption. }
  exists prz. intros eps Heps.
  destruct (HL eps Heps) as [B [HB HC]].
  exists (Rmax B z). split; [apply Rmax_r | ].
  intros b Hb HBb.
  assert (H0b : 0 <= b) by lra.
  assert (HBb' : B <= b) by (eapply Rle_trans; [apply Rmax_l | exact HBb]).
  specialize (HC b H0b HBb').
  rewrite <- (RiemannInt_P26 (pr0 z Hz) (prz b Hb) (pr0 b H0b)) in HC.
  replace (RiemannInt (prz b Hb) - (L - RiemannInt (pr0 z Hz)))
    with (RiemannInt (pr0 z Hz) + RiemannInt (prz b Hb) - L) by ring.
  exact HC.
Qed.

(** The ideal integrator is exact. *)
Lemma ideal_quad_exact : quad_exact ideal_quad.
Proof.
  split.
  - intros f a b pr. unfold ideal_quad. cbn [fst].
    assert (Hex : exists I, is_integral f a (Fin b) I)
      by (exists (RiemannInt pr), pr; reflexivity).
    destruct (epsilon_spec (inhabits 0) _ Hex) as [pr' Hpr'].
    rewrite <- Hpr'. apply RiemannInt_P5.
  - intros f a pr L HL. unfold ideal_quad. cbn [fst].
    assert (Hex : exists I, is_integral f a Inf I) by (exists L, pr; exact HL).
    destruct (epsilon_spec (inhabits 0) _ Hex) as [pr' Hpr'].
    exact (improper_integral_unique f a pr' pr _ _ Hpr' HL).
Qed.

(** ** Distances and times as integrals *)

Lemma t_H_pos (self : Cosmos) :
  0 < h self -> exists th : R, eval t_H self = Ok th /\ 0 < th.
Proof.
  intros Hh. rewrite eval_t_H, float_div_ok by lra. cbn [rmap].
  eexists. split; [reflexivity | ].
  assert (0 < 1 / (100 * h self)) by (apply Rdiv_lt_0_compat; lra).
  apply Rmult_lt_0_compat; [apply Rmult_lt_0_compat | ]; lra.
Qed.

Section Integrals.

Variable quad : (R -> R) -> R -> limit -> R * R.
Hypothesis quad_is_exact : quad_exact quad.

(** With an exact integrator [D_C] is the Hubble distance times the
    integral of 1/E. *)
Lemma eval_D_C_integral (self : Cosmos) (z : R)
    (pr : Riemann_integrable (fun z' => 1 / E z' (om self) (ol self)) 0 z) :
  eval (D_C quad z) self =
  rmap (fun dh => dh * RiemannInt pr) (eval D_H self).
Proof.
  destruct quad_is_exact as [Hfin _].
  rewrite eval_D_C. rewrite <- (Hfin _ 0 z pr). reflexivity.
Qed.

(** C5. For every cosmology, wherever 1/E is integrable on [[0, z]], the
    line-of-sight comoving distance is D_H times the integral of 1/E(z') for
    z' from 0 to z, with E(z') = sqrt(Omega_m (1+z')^3 + Omega_k (1+z')^2
    + Omega_Lambda); at z = 0 it is 0, the integral over [[0, 0]].  [quad] is
    taken as exact. *)
Theorem D_C_is_D_H_times_integral (self : Cosmos) (z : R)
    (pr : Riemann_integrable (fun z' => 1 / E z' (om self) (ol self)) 0 z) :
  D_C quad z self = (_D_H <- D_H ;; ret (_D_H * RiemannInt pr)) self
  /\ (forall z' : R,
        E z' (om self) (ol self) =
        sqrt (om self * (1 + z') ^ 3
              + (1 - om self - ol self) * (1 + z') ^ 2
              + ol self))
  /\ (h self <> 0 ->
      eval (D_C quad z) self = Ok (c / (100 * h self) * RiemannInt pr)
      /\ eval (D_C quad 0) self = Ok 0).
Proof.
  destruct quad_is_exact as [Hfin _].
  assert (Hz := eval_D_C_integral self z pr).
  split; [ | split; [intros z'; reflexivity | intros Hh; split] ].
  - apply run_ext; [auto with frame | frame; auto with frame | ].
    rewrite Hz. eval_body. destruct (eval D_H self); reflexivity.
  - rewrite Hz, (eval_D_H_ok self Hh). reflexivity.
  - rewrite eval_D_C, (eval_D_H_ok self Hh). cbn [rmap].
    rewrite (Hfin _ 0 0 (RiemannInt_P7 _ 0)), RiemannInt_P9.
    f_equal. ring.
Qed.

Lemma eval_t_L (z : R) (self : Cosmos) :
  eval (t_L quad z) self =
  rmap (fun th =>
          th * fst (quad (fun x => t_integrand x (om self) (ol self))
                         0 (Fin z)))
       (eval t_H self).
Proof.
  unfold t_L. eval_body. destruct (eval t_H self); reflexivity.
Qed.

Lemma eval_t (z : R) (self : Cosmos) :
  eval (t quad z) self =
  rmap (fun th =>
          th * fst (quad (fun x => t_integrand x (om self) (ol self)) z Inf))
       (eval t_H self).
Proof.
  unfold t. eval_body. destruct (eval t_H self); reflexivity.
Qed.

(** C8. For a cosmology with h100 > 0, a positive radicand of E at every
    z >= 0 and a convergent age integral, lookback time and age integrate
    the common integrand 1/((1+z') E(z')), over [[0, z]] and over
    [[z, +oo)]: t(z) + t_L(z) is the constant t(0) at every z >= 0, and t is
    strictly decreasing in z.  [quad] is taken as exact. *)
Theorem t_plus_t_L_is_age (self : Cosmos) :
  0 < h self ->
  (forall x : R, 0 <= x -> 0 < radicand self x) ->
  (exists (pr : integrable_from (fun x => t_integrand x (om self) (ol self)) 0)
          (L : R),
      improper_integral (fun x => t_integrand x (om self) (ol self)) 0 pr L) ->
  (forall x : R,
      t_integrand x (om self) (ol self) = 1 / ((1 + x) * E x (om self) (ol self)))
  /\ exists age : R,
      eval (t quad 0) self = Ok age
      /\ (forall z : R, 0 <= z ->
            exists a l : R,
              eval (t quad z) self = Ok a
              /\ eval (t_L quad z) self = Ok l
              /\ a + l = age)
      /\ (forall z1 z2 a1 a2 : R, 0 <= z1 -> z1 < z2 ->
            eval (t quad z1) self = Ok a1 ->
            eval (t quad z2) self = Ok a2 ->
            a2 < a1).
Proof.
  intros Hh Hrad [pr0 [L HL]].
  destruct quad_is_exact as [Hfin Hinf].
  destruct (t_H_pos self Hh) as [th [Hth Hpos]].
  set (f := fun x => t_integrand x (om self) (ol self)) in *.
  (* the value of [t] at any redshift *)
  assert (Ht : forall z (Hz : 0 <= z),
             eval (t quad z) self = Ok (th * (L - RiemannInt (pr0 z Hz)))).
  { intros z Hz. rewrite eval_t, Hth. cbn [rmap]. fold f.
    destruct (improper_integral_tail f z pr0 L Hz HL) as [prz Hprz].
    rewrite (Hinf f z prz _ Hprz). reflexivity. }
  assert (HtL : forall z (Hz : 0 <= z),
             eval (t_L quad z) self = Ok (th * RiemannInt (pr0 z Hz))).
  { intros z Hz. rewrite eval_t_L, Hth. cbn [rmap]. fold f.
    rewrite (Hfin f 0 z (pr0 z Hz)). reflexivity. }
  split.
  { intros x. unfold t_integrand, E, Rdiv.
    rewrite Rinv_mult. ring. }
  exists (th * L). repeat split.
  - rewrite (Ht 0 (Rle_refl 0)), RiemannInt_P9. f_equal. ring.
  - intros z Hz. exists (th * (L - RiemannInt (pr0 z Hz))),
      (th * RiemannInt (pr0 z Hz)).
    repeat split; [apply Ht | apply HtL | ring].
  - intros z1 z2 a1 a2 Hz1 Hlt H1 H2.
    assert (Hz2 : 0 <= z2) by lra.
    rewrite (Ht z1 Hz1) in H1. rewrite (Ht z2 Hz2) in H2.
    injection H1 as <-. injection H2 as <-.
    assert (pr12 : Riemann_integrable f z1 z2).
    { apply RiemannInt_P23 with 0; [apply pr0; lra | lra]. }
    assert (Hsplit := RiemannInt_P26 (pr0 z1 Hz1) pr12 (pr0 z2 Hz2)).
    assert (Hp : 0 < RiemannInt pr12).
    { apply RiemannInt_pos; [exact Hlt | | ].
      - intros x Hx. apply t_integrand_continuous; [lra | apply Hrad; lra].
      - intros x Hx. apply t_integrand_pos; [lra | apply Hrad; lra]. }
    apply Rmult_lt_compat_l; [exact Hpos | lra].
Qed.

End Integrals.

(** ** Sample cosmologies *)

(** The empty (Milne) universe: the age integrand is 1/(1+x)^2. *)
Lemma Milne_integrand (x : R) :
  0 <= x -> t_integrand x (om Cosmos_Milne) (ol Cosmos_Milne) = / (1 + x) ^ 2.
Proof.
  intros Hx. unfold t_integrand, Cosmos_Milne. cbn [om ol].
  replace (0 * (1 + x) ^ 3 + (1 - 0 - 0) * (1 + x) ^ 2 + 0)
    with ((1 + x) ^ 2) by ring.
  rewrite sqrt_pow2 by lra. field. lra.
Qed.

Lemma Milne_radicand (x : R) : 0 <= x -> 0 < radicand Cosmos_Milne x.
Proof.
  intros Hx. unfold radicand, Cosmos_Milne. cbn [om ol].
  replace (0 * (1 + x) ^ 3 + (1 - 0 - 0) * (1 + x) ^ 2 + 0)
    with ((1 + x) ^ 2) by ring.
  apply pow_lt. lra.
Qed.

Lemma Milne_antiderivative (b : R) :
  0 <= b ->
  antiderivative (fun x => t_integrand x (om Cosmos_Milne) (ol Cosmos_Milne))
                 (fun x => x / (1 + x)) 0 b.
Proof.
  intros Hb. split; [ | exact Hb].
  intros x Hx.
  assert (Hlim : derivable_pt_lim (fun x => x / (1 + x)) x (/ (1 + x) ^ 2)).
  { replace (/ (1 + x) ^ 2)
      with ((1 * (fct_cte 1 + id)%F x - (0 + 1) * id x)
            / Rsqr ((fct_cte 1 + id)%F x))
      by (unfold plus_fct, fct_cte, id, Rsqr; field; lra).
    apply (derivable_pt_lim_div id (fct_cte 1 + id)%F).
    - apply derivable_pt_lim_id.
    - apply derivable_pt_lim_plus;
        [apply derivable_pt_lim_const | apply derivable_pt_lim_id].
    - unfold plus_fct, fct_cte, id. lra. }
  exists (exist _ _ Hlim). rewrite Milne_integrand by lra. reflexivity.
Qed.

Lemma Milne_integrable :
  integrable_from (fun x => t_integrand x (om Cosmos_Milne) (ol Cosmos_Milne))
                  0.
Proof.
  intros b Hb. apply continuity_implies_RiemannInt; [exact Hb | ].
  intros x Hx. apply t_integrand_continuous; [lra | apply Milne_radicand; lra].
Qed.

Lemma Milne_age_converges :
  improper_integral
    (fun x => t_integrand x (om Cosmos_Milne) (ol Cosmos_Milne))
    0 Milne_integrable 1.
Proof.
  intros eps Heps. exists (/ eps).
  assert (Hie : 0 < / eps) by (apply Rinv_0_lt_compat; exact Heps).
  split; [lra | ].
  intros b Hb HB.
  rewrite (RiemannInt_antiderivative _ (fun x => x / (1 + x)) 0 b).
  - replace (b / (1 + b) - 0 / (1 + 0) - 1) with (- / (1 + b))
      by (field; lra).
    rewrite Rabs_Ropp, Rabs_pos_eq
      by (apply Rlt_le, Rinv_0_lt_compat; lra).
    rewrite <- (Rinv_inv eps).
    apply Rinv_lt_contravar; [apply Rmult_lt_0_compat; lra | lra].
  - intros x Hx. apply t_integrand_continuous;
      [lra | apply Milne_radicand; lra].
  - apply Milne_antiderivative, Hb.
Qed.

(** The default cosmology. *)
Lemma default_radicand (x : R) : 0 <= x -> 0 < radicand Cosmos_default x.
Proof.
  intros Hx. unfold radicand, Cosmos_default. cbn [om ol].
  unfold default_omega_matter, default_omega_lambda.
  assert (0 < (1 + x) ^ 3) by (apply pow_lt; lra).
  lra.
Qed.

Lemma default_integrable :
  Riemann_integrable
    (fun z' => 1 / E z' (om Cosmos_default) (ol Cosmos_default)) 0 1.
Proof.
  apply continuity_implies_RiemannInt; [lra | ].
  intros x Hx.
  apply (D_C_integrand_continuous Cosmos_default), default_radicand. lra.
Qed.

Lemma default_integral_pos : 0 < RiemannInt default_integrable.
Proof.
  apply RiemannInt_pos; [lra | | ]; intros x Hx.
  - apply (D_C_integrand_continuous Cosmos_default), default_radicand. lra.
  - apply (D_C_integrand_pos Cosmos_default), default_radicand. lra.
Qed.

Lemma default_h_nonzero : h Cosmos_default <> 0.
Proof. cbn. unfold default_h_100. lra. Qed.

Lemma eval_D_L_default :
  eval (D_L ideal_quad 1) Cosmos_default =
  Ok ((1 + 1) * (c / (100 * h Cosmos_default) * RiemannInt default_integrable)).
Proof.
  unfold D_L. eval_body. rewrite eval_D_M_flat.
  - rewrite (eval_D_C_integral ideal_quad ideal_quad_exact Cosmos_default 1
               default_integrable).
    rewrite (eval_D_H_ok Cosmos_default default_h_nonzero). reflexivity.
  - cbn. unfold default_omega_matter, default_omega_lambda. lra.
Qed.

Lemma D_L_default_pos :
  0 < (1 + 1) * (c / (100 * h Cosmos_default) * RiemannInt default_integrable).
Proof.
  pose proof default_integral_pos.
  assert (0 < c / (100 * h Cosmos_default)).
  { unfold c, scipy_constants_c. cbn. unfold default_h_100. lra. }
  apply Rmult_lt_0_compat; [lra | apply Rmult_lt_0_compat; assumption].
Qed.

(** ** Instances of the theorems *)

Lemma D_C_is_D_H_times_integral_witness :
  quad_exact ideal_quad
  /\ D_C ideal_quad 1 Cosmos_default =
     (_D_H <- D_H ;; ret (_D_H * RiemannInt default_integrable)) Cosmos_default
  /\ (h Cosmos_default <> 0 ->
      eval (D_C ideal_quad 1) Cosmos_default =
        Ok (c / (100 * h Cosmos_default) * RiemannInt default_integrable)
      /\ eval (D_C ideal_quad 0) Cosmos_default = Ok 0).
Proof.
  split; [exact ideal_quad_exact | ].
  pose proof (D_C_is_D_H_times_integral ideal_quad ideal_quad_exact
                Cosmos_default 1 default_integrable) as [H1 [_ H2]].
  split; [exact H1 | exact H2].
Defined.

Lemma t_plus_t_L_is_age_witness :
  quad_exact ideal_quad
  /\ 0 < h Cosmos_Milne
  /\ (forall x : R, 0 <= x -> 0 < radicand Cosmos_Milne x)
  /\ (exists (pr : integrable_from
                     (fun x => t_integrand x (om Cosmos_Milne)
                                 (ol Cosmos_Milne)) 0)
             (L : R),
         improper_integral
           (fun x => t_integrand x (om Cosmos_Milne) (ol Cosmos_Milne))
           0 pr L)
  /\ exists age : R,
      eval (t ideal_quad 0) Cosmos_Milne = Ok age
      /\ (forall z : R, 0 <= z ->
            exists a l : R,
              eval (t ideal_quad z) Cosmos_Milne = Ok a
              /\ eval (t_L ideal_quad z) Cosmos_Milne = Ok l
              /\ a + l = age)
      /\ (forall z1 z2 a1 a2 : R, 0 <= z1 -> z1 < z2 ->
            eval (t ideal_quad z1) Cosmos_Milne = Ok a1 ->
            eval (t ideal_quad z2) Cosmos_Milne = Ok a2 ->
            a2 < a1).
Proof.
  assert (Hh : 0 < h Cosmos_Milne) by (cbn; lra).
  assert (Hc : exists (pr : integrable_from
                     (fun x => t_integrand x (om Cosmos_Milne)
                                 (ol Cosmos_Milne)) 0)
             (L : R),
         improper_integral
           (fun x => t_integrand x (om Cosmos_Milne) (ol Cosmos_Milne))
           0 pr L)
    by (exists Milne_integrable, 1; exact Milne_age_converges).
  split; [exact ideal_quad_exact | ].
  split; [exact Hh | ].
  split; [exact Milne_radicand | ].
  split; [exact Hc | ].
  exact (proj2 (t_plus_t_L_is_age ideal_quad ideal_quad_exact Cosmos_Milne
                  Hh Milne_radicand Hc)).
Defined.

Lemma V_C_open_raises_NameError_witness :
  h Cosmos_open <> 0
  /\ 0 < 1 - om Cosmos_open - ol Cosmos_open
  /\ eval (V_C ideal_quad 1) Cosmos_open = Raise (NameError "arcsinh").
Proof.
  assert (Hh : h Cosmos_open <> 0) by (cbn; lra).
  assert (Hok : 0 < 1 - om Cosmos_open - ol Cosmos_open) by (cbn; lra).
  split; [exact Hh | split; [exact Hok | ] ].
  exact (V_C_open_raises_NameError ideal_quad Cosmos_open 1 Hh Hok).
Defined.

Lemma h_zero_raises_ZeroDivisionError_witness :
  h Cosmos_static = 0
  /\ eval H0 Cosmos_static = Ok 0
  /\ eval D_H Cosmos_static = Raise ZeroDivisionError
  /\ eval t_H Cosmos_static = Raise ZeroDivisionError
  /\ (forall q : query, q <> Q_H0 ->
        eval (call ideal_quad q 1) Cosmos_static = Raise ZeroDivisionError).
Proof.
  assert (Hh : h Cosmos_static = 0) by reflexivity.
  split; [exact Hh | ].
  exact (h_zero_raises_ZeroDivisionError ideal_quad Cosmos_static 1 Hh).
Defined.

Lemma D_M_flat_exact_witness :
  om Cosmos_default + ol Cosmos_default = 1
  /\ D_M ideal_quad 1 Cosmos_default = D_C ideal_quad 1 Cosmos_default
  /\ 0 < 1 - om Cosmos_open - ol Cosmos_open
  /\ D_M ideal_quad 1 Cosmos_open =
     (_D_C <- D_C ideal_quad 1 ;;
      _D_H <- D_H ;;
      let ok := 1 - om Cosmos_open - ol Cosmos_open in
      ret ((_D_H / sqrt ok) * sinh (sqrt ok * _D_C / _D_H))) Cosmos_open
  /\ 1 - om Cosmos_closed - ol Cosmos_closed < 0
  /\ D_M ideal_quad 1 Cosmos_closed =
     (_D_C <- D_C ideal_quad 1 ;;
      _D_H <- D_H ;;
      let ok := 1 - om Cosmos_closed - ol Cosmos_closed in
      ret ((_D_H / sqrt (Rabs ok)) * sin (sqrt (Rabs ok) * _D_C / _D_H)))
       Cosmos_closed.
Proof.
  assert (Hf : om Cosmos_default + ol Cosmos_default = 1).
  { cbn. unfold default_omega_matter, default_omega_lambda. lra. }
  assert (Ho : 0 < 1 - om Cosmos_open - ol Cosmos_open) by (cbn; lra).
  assert (Hc : 1 - om Cosmos_closed - ol Cosmos_closed < 0) by (cbn; lra).
  split; [exact Hf | ].
  split; [exact (proj1 (D_M_flat_exact ideal_quad Cosmos_default 1) Hf) | ].
  split; [exact Ho | ].
  split;
    [exact (proj1 (proj2 (D_M_flat_exact ideal_quad Cosmos_open 1)) Ho) | ].
  split; [exact Hc | ].
  exact (proj2 (proj2 (D_M_flat_exact ideal_quad Cosmos_closed 1)) Hc).
Defined.

Lemma D_L_is_D_A_scaled_witness :
  0 <= 1
  /\ eval (D_L ideal_quad 1) Cosmos_default =
     rmap (fun _D_A => (1 + 1) ^ 2 * _D_A)
          (eval (D_A ideal_quad 1) Cosmos_default)
  /\ (h Cosmos_default <> 0 ->
      exists _D_A : R,
        eval (D_A ideal_quad 1) Cosmos_default = Ok _D_A
        /\ eval (D_L ideal_quad 1) Cosmos_default = Ok ((1 + 1) ^ 2 * _D_A)).
Proof.
  assert (Hz : 0 <= 1) by lra.
  split; [exact Hz | ].
  exact (D_L_is_D_A_scaled ideal_quad Cosmos_default 1 Hz).
Defined.

Lemma V_C_closed_witness :
  1 - om Cosmos_closed - ol Cosmos_closed < 0
  /\ 0 <= 1
  /\ V_C ideal_quad 1 Cosmos_closed =
     (_D_M <- D_M ideal_quad 1 ;;
      _D_H <- D_H ;;
      let ok := 1 - om Cosmos_closed - ol Cosmos_closed in
      let m := _D_M / _D_H in
      ret ((2 * PI * _D_H ^ 3 / ok)
           * (m * sqrt (1 + ok * m ^ 2)
              - asin (m * sqrt (Rabs ok)) / sqrt (Rabs ok)))) Cosmos_closed
  /\ (h Cosmos_closed <> 0 ->
      exists v : R, eval (V_C ideal_quad 1) Cosmos_closed = Ok v).
Proof.
  assert (Hc : 1 - om Cosmos_closed - ol Cosmos_closed < 0) by (cbn; lra).
  assert (Hz : 0 <= 1) by lra.
  split; [exact Hc | split; [exact Hz | ] ].
  exact (V_C_closed ideal_quad Cosmos_closed 1 Hc Hz).
Defined.

Lemma DM_is_log10_of_D_L_witness :
  eval (D_L ideal_quad 1) Cosmos_default =
    Ok ((1 + 1) * (c / (100 * h Cosmos_default)
                   * RiemannInt default_integrable))
  /\ 0 < (1 + 1) * (c / (100 * h Cosmos_default)
                    * RiemannInt default_integrable)
  /\ exists mu : R,
      eval (DM ideal_quad 1) Cosmos_default = Ok mu
      /\ mu = 5 * log10 ((1 + 1) * (c / (100 * h Cosmos_default)
                                    * RiemannInt default_integrable)
                         * 1e6 / 10)
      /\ 10 * Rpower 10 (mu / 5) =
         (1 + 1) * (c / (100 * h Cosmos_default)
                    * RiemannInt default_integrable) * 1e6.
Proof.
  split; [exact eval_D_L_default | ].
  split; [exact D_L_default_pos | ].
  exact (DM_is_log10_of_D_L ideal_quad Cosmos_default 1 _
           eval_D_L_default D_L_default_pos).
Defined.

Lemma dV_C_is_dP_D_A_sqr_witness :
  0 <= 1
  /\ eval (dV_C ideal_quad 1) Cosmos_default =
     eval (_dP <- dP 1 ;; _D_A <- D_A ideal_quad 1 ;; ret (_dP * _D_A ^ 2))
          Cosmos_default
  /\ dP 0 Cosmos_default = D_H Cosmos_default
  /\ E 0 (om Cosmos_default) (ol Cosmos_default) = 1.
Proof.
  assert (Hz : 0 <= 1) by lra.
  split; [exact Hz | ].
  exact (dV_C_is_dP_D_A_sqr ideal_quad Cosmos_default 1 Hz).
Defined.

(** * Further properties *)

(** ** Relations between the distances *)

Lemma Hubble_distance_nonzero (self : Cosmos) :
  h self <> 0 -> c / (100 * h self) <> 0.
Proof.
  intros Hh. unfold c, scipy_constants_c, Rdiv.
  apply Rmult_integral_contrapositive_currified.
  - lra.
  - apply Rinv_neq_0_compat. lra.
Qed.

Section MoreDistances.

Variable quad : (R -> R) -> R -> limit -> R * R.

Lemma eval_D_A (z : R) (self : Cosmos) :
  eval (D_A quad z) self =
  match eval (D_M quad z) self with
  | Ok dm => float_div dm (1 + z)
  | Raise e => Raise e
  end.
Proof.
  unfold D_A. eval_body. destruct (eval (D_M quad z) self); reflexivity.
Qed.

Lemma eval_D_L (z : R) (self : Cosmos) :
  eval (D_L quad z) self =
  rmap (fun dm => (1 + z) * dm) (eval (D_M quad z) self).
Proof.
  unfold D_L. eval_body. destruct (eval (D_M quad z) self); reflexivity.
Qed.

Lemma eval_DM (z : R) (self : Cosmos) :
  eval (DM quad z) self =
  rmap (fun dl => 5 * log10 (dl * 1e6 / 10)) (eval (D_L quad z) self).
Proof.
  unfold DM. eval_body. destruct (eval (D_L quad z) self); reflexivity.
Qed.

(** The value of [D_M] once the Hubble parameter is not zero: the Hubble
    distance times a function of the integral [quad] returns. *)
Lemma eval_D_M_value (z : R) (self : Cosmos) :
  h self <> 0 ->
  let I := fst (quad (fun x => D_C_integrand x (om self) (ol self))
                     0 (Fin z)) in
  let dh := c / (100 * h self) in
  let ok := 1 - om self - ol self in
  eval (D_M quad z) self =
  Ok (if Rlt_dec 0 ok then dh / sqrt ok * sinh (sqrt ok * I)
      else if Req_dec_T ok 0 then dh * I
      else dh / sqrt (Rabs ok) * sin (sqrt (Rabs ok) * I)).
Proof.
  intros Hh I dh ok. rewrite eval_D_M, eval_D_C, (eval_D_H_ok self Hh).
  cbn [rmap]. cbv zeta. fold I dh ok.
  assert (Hdh : dh <> 0) by (apply Hubble_distance_nonzero, Hh).
  destruct (Rlt_dec 0 ok); [ | destruct (Req_dec_T ok 0)]; f_equal.
  - f_equal. f_equal. field. exact Hdh.
  - f_equal. f_equal. field. exact Hdh.
Qed.


(** X6. For h100 <> 0 and z >= 0 the three distances evaluate, the product
    D_A D_L is D_M^2, and a nonnegative D_M lies between D_A and D_L. *)
Theorem D_A_D_L_bracket_D_M (self : Cosmos) (z : R) :
  h self <> 0 -> 0 <= z ->
  exists dm da dl : R,
    eval (D_M quad z) self = Ok dm
    /\ eval (D_A quad z) self = Ok da
    /\ eval (D_L quad z) self = Ok dl
    /\ da * dl = dm ^ 2
    /\ (0 <= dm -> da <= dm <= dl).
Proof.
  intros Hh Hz. destruct (eval_D_M_ok quad z self Hh) as [dm Hdm].
  exists dm, (dm / (1 + z)), ((1 + z) * dm).
  rewrite eval_D_A, eval_D_L, Hdm, float_div_ok by lra. cbn [rmap].
  repeat split.
  - field. lra.
  - apply Rmult_le_reg_r with (1 + z); [lra | ].
    unfold Rdiv. rewrite Rmult_assoc, Rinv_l by lra. nra.
  - nra.
Qed.

(** X3. The Hubble distance and the Hubble time scale as 1/h100:
    h100 D_H = 2997.92458 Mpc, and h100 t_H lies between 9.777 and 9.779
    Gyr. *)
Theorem Hubble_scales_with_h (self : Cosmos) :
  h self <> 0 ->
  exists dh th : R,
    eval D_H self = Ok dh
    /\ eval t_H self = Ok th
    /\ h self * dh = 2997.92458
    /\ 9.777 < h self * th < 9.779.
Proof.
  intros Hh. eexists. eexists.
  rewrite (eval_D_H_ok self Hh), eval_t_H, float_div_ok
    by (apply H0_nonzero, Hh).
  cbn [rmap]. split; [reflexivity | split; [reflexivity | ] ].
  split.
  - unfold c, scipy_constants_c.
    replace (h self * (299792458 / 1e3 / (100 * h self)))
      with (299792458 / 1e3 / 100) by (field; exact Hh).
    lra.
  - set (A := 1e-3 * 1e6 * 3.0856776e16).
    set (B := 1 / (365.25 * 24 * 3600) * 1e-9).
    replace (h self * (1 / (100 * h self) * A * B)) with (A * B / 100)
      by (field; exact Hh).
    unfold A, B.
    lra.
Qed.


(** The product of the Hubble parameter and [D_M] does not depend on the
    Hubble parameter. *)
Lemma h_times_D_M (z : R) (self1 self2 : Cosmos) :
  om self1 = om self2 -> ol self1 = ol self2 ->
  h self1 <> 0 -> h self2 <> 0 ->
  exists d1 d2 : R,
    eval (D_M quad z) self1 = Ok d1
    /\ eval (D_M quad z) self2 = Ok d2
    /\ h self1 * d1 = h self2 * d2.
Proof.
  intros Hom Hol H1 H2.
  rewrite (eval_D_M_value z self1 H1), (eval_D_M_value z self2 H2).
  cbv zeta. rewrite Hom, Hol.
  eexists. eexists. split; [reflexivity | split; [reflexivity | ] ].
  set (I := fst (quad _ 0 (Fin z))).
  set (ok := 1 - om self2 - ol self2).
  assert (E1 : h self1 * (c / (100 * h self1)) = c / 100) by (field; exact H1).
  assert (E2 : h self2 * (c / (100 * h self2)) = c / 100) by (field; exact H2).
  set (k := c / 100) in *.
  generalize dependent (c / (100 * h self1)).
  generalize dependent (c / (100 * h self2)).
  intros dh2 E2 dh1 E1.
  destruct (Rlt_dec 0 ok); [ | destruct (Req_dec_T ok 0)].
  - transitivity (k / sqrt ok * sinh (sqrt ok * I));
      [rewrite <- E1 | rewrite <- E2]; unfold Rdiv; ring.
  - transitivity (k * I); [rewrite <- E1 | rewrite <- E2]; ring.
  - transitivity (k / sqrt (Rabs ok) * sin (sqrt (Rabs ok) * I));
      [rewrite <- E1 | rewrite <- E2]; unfold Rdiv; ring.
Qed.

(** X4. Two cosmologies with the same density parameters and nonzero Hubble
    parameters h1, h2 have distances D_H, D_C, D_M, D_A and D_L in the ratio
    h2 : h1 at every redshift z >= 0, in each curvature branch, for any
    integrator. *)
Theorem distances_scale_inversely_with_h (z : R) (self1 self2 : Cosmos) :
  om self1 = om self2 -> ol self1 = ol self2 ->
  h self1 <> 0 -> h self2 <> 0 -> 0 <= z ->
  forall q : query, In q [Q_D_H; Q_D_C; Q_D_M; Q_D_A; Q_D_L] ->
    exists d1 d2 : R,
      eval (call quad q z) self1 = Ok d1
      /\ eval (call quad q z) self2 = Ok d2
      /\ h self1 * d1 = h self2 * d2.
Proof.
  intros Hom Hol H1 H2 Hz q Hq.
  destruct (h_times_D_M z self1 self2 Hom Hol H1 H2)
    as [m1 [m2 [Hm1 [Hm2 Hm]]]].
  assert (E1 : h self1 * (c / (100 * h self1)) = c / 100) by (field; exact H1).
  assert (E2 : h self2 * (c / (100 * h self2)) = c / 100) by (field; exact H2).
  simpl in Hq.
  destruct Hq as [<- | [<- | [<- | [<- | [<- | []]]]]]; cbn [call].
  - rewrite (eval_D_H_ok self1 H1), (eval_D_H_ok self2 H2).
    eexists. eexists. split; [reflexivity | split; [reflexivity | ] ].
    rewrite E1, E2. reflexivity.
  - rewrite !eval_D_C, (eval_D_H_ok self1 H1), (eval_D_H_ok self2 H2).
    cbn [rmap]. rewrite Hom, Hol.
    eexists. eexists. split; [reflexivity | split; [reflexivity | ] ].
    set (I := fst (quad _ 0 (Fin z))).
    rewrite <- !Rmult_assoc, E1, E2. reflexivity.
  - exists m1, m2. auto.
  - rewrite !eval_D_A, Hm1, Hm2, !float_div_ok by lra.
    eexists. eexists. split; [reflexivity | split; [reflexivity | ] ].
    unfold Rdiv. rewrite <- !Rmult_assoc, Hm. reflexivity.
  - rewrite !eval_D_L, Hm1, Hm2. cbn [rmap].
    eexists. eexists. split; [reflexivity | split; [reflexivity | ] ].
    rewrite !(Rmult_comm (1 + z)), <- !Rmult_assoc, Hm. reflexivity.
Qed.

Lemma ln_10_pos : 0 < ln 10.
Proof. rewrite <- ln_1. apply ln_increasing; lra. Qed.

(** X5. Changing the Hubble parameter from h1 to h2 > 0, the density
    parameters kept, shifts the distance modulus by 5 log10(h1 / h2) at every
    redshift where the luminosity distance is positive. *)
Theorem DM_shift_with_h (z : R) (self1 self2 : Cosmos) (dl1 : R) :
  om self1 = om self2 -> ol self1 = ol self2 ->
  0 < h self1 -> 0 < h self2 ->
  eval (D_L quad z) self1 = Ok dl1 -> 0 < dl1 ->
  exists mu1 mu2 : R,
    eval (DM quad z) self1 = Ok mu1
    /\ eval (DM quad z) self2 = Ok mu2
    /\ mu2 - mu1 = 5 * log10 (h self1 / h self2).
Proof.
  intros Hom Hol H1 H2 HL Hpos.
  assert (N1 : h self1 <> 0) by lra. assert (N2 : h self2 <> 0) by lra.
  destruct (h_times_D_M z self1 self2 Hom Hol N1 N2)
    as [m1 [m2 [Hm1 [Hm2 Hm]]]].
  rewrite eval_D_L, Hm1 in HL. cbn [rmap] in HL. injection HL as <-.
  rewrite !eval_DM, !eval_D_L, Hm1, Hm2. cbn [rmap].
  eexists. eexists. split; [reflexivity | split; [reflexivity | ] ].
  assert (Hm2v : (1 + z) * m2 = (1 + z) * m1 * (h self1 / h self2)).
  { replace m2 with (h self1 * m1 / h self2); [field; lra | ].
    rewrite Hm. field. lra. }
  assert (Hr : 0 < h self1 / h self2) by (apply Rdiv_lt_0_compat; lra).
  rewrite Hm2v.
  replace ((1 + z) * m1 * (h self1 / h self2) * 1e6 / 10)
    with (((1 + z) * m1 * 1e6 / 10) * (h self1 / h self2)) by (field; lra).
  unfold log10. rewrite ln_mult by lra.
  pose proof ln_10_pos. field. lra.
Qed.

End MoreDistances.

(** ** The queries that return *)

Section MoreVolumes.

Variable quad : (R -> R) -> R -> limit -> R * R.

Lemma eval_V_C (z : R) (self : Cosmos) :
  eval (V_C quad z) self =
  match eval (D_M quad z) self with
  | Ok dm =>
      let ok := 1 - om self - ol self in
      if Req_dec_T ok 0 then Ok (4 * PI * dm ^ 3 / 3)
      else
        match eval D_H self with
        | Ok dh =>
            let mh := dm / dh in
            if Rlt_dec 0 ok then Raise (NameError "arcsinh")
            else
              Ok ((2 * PI * dh ^ 3 / ok)
                  * (mh * sqrt (1 + ok * mh ^ 2)
                     - asin (mh * sqrt (Rabs ok)) / sqrt (Rabs ok)))
        | Raise e => Raise e
        end
  | Raise e => Raise e
  end.
Proof.
  unfold V_C. eval_body.
  destruct (eval (D_M quad z) self) as [dm | e]; [ | reflexivity].
  eval_body. destruct (Req_dec_T _ _); [reflexivity | ].
  eval_body. destruct (eval D_H self) as [dh | e]; [ | reflexivity].
  eval_body. destruct (Rlt_dec _ _); [ | reflexivity].
  eval_body. rewrite call_arcsinh_unbound. reflexivity.
Qed.

Lemma eval_dV_C (z : R) (self : Cosmos) :
  eval (dV_C quad z) self =
  match eval D_H self with
  | Ok dh =>
      rmap (fun da => dh * (1 + z) ^ 2 * da ^ 2 / E z (om self) (ol self))
           (eval (D_A quad z) self)
  | Raise e => Raise e
  end.
Proof.
  unfold dV_C. eval_body.
  destruct (eval D_H self) as [dh | e]; [ | reflexivity].
  eval_body. destruct (eval (D_A quad z) self); reflexivity.
Qed.

(** X12. In a flat cosmology the comoving volume is the volume of the
    Euclidean ball of radius D_C(z), (4 pi / 3) D_C(z)^3; it returns whenever
    h100 <> 0. *)
Theorem V_C_flat_is_ball_volume (self : Cosmos) (z : R) :
  om self + ol self = 1 ->
  V_C quad z self =
  (_D_C <- D_C quad z ;; ret (4 * PI * _D_C ^ 3 / 3)) self
  /\ (h self <> 0 -> exists v : R, eval (V_C quad z) self = Ok v).
Proof.
  intros Hflat. assert (Hok : 1 - om self - ol self = 0) by lra.
  assert (Hev : eval (V_C quad z) self =
                rmap (fun dc => 4 * PI * dc ^ 3 / 3)
                     (eval (D_C quad z) self)).
  { rewrite eval_V_C, (eval_D_M_flat quad z self Hok).
    destruct (eval (D_C quad z) self) as [dc | e]; [ | reflexivity].
    cbv zeta. destruct (Req_dec_T _ _); [reflexivity | contradiction]. }
  split.
  - apply run_ext; [auto with frame | frame; auto with frame | ].
    rewrite Hev. eval_body.
    destruct (eval (D_C quad z) self); reflexivity.
  - intros Hh. rewrite Hev.
    destruct (eval_D_C_ok quad z self Hh) as [dc ->]. cbn [rmap]. eauto.
Qed.



End MoreVolumes.

(** ** Redshift zero *)

Section AtZero.

Variable quad : (R -> R) -> R -> limit -> R * R.
Hypothesis quad_is_exact : quad_exact quad.

Lemma quad_point (f : R -> R) (a : R) : fst (quad f a (Fin a)) = 0.
Proof.
  destruct quad_is_exact as [Hfin _].
  rewrite (Hfin f a a (RiemannInt_P7 f a)). apply RiemannInt_P9.
Qed.

(** X1. At redshift 0, with a nonzero Hubble parameter and an exact [quad],
    the distances D_C, D_M, D_A and D_L, the volume element dV_C and the
    lookback time t_L are all 0, in each curvature branch; so is the volume
    V_C in the flat and closed branches. *)
Theorem distances_vanish_at_zero (self : Cosmos) :
  h self <> 0 ->
  (forall q : query,
      In q [Q_D_C; Q_D_M; Q_D_A; Q_D_L; Q_dV_C; Q_t_L] ->
      eval (call quad q 0) self = Ok 0)
  /\ (1 - om self - ol self <= 0 -> eval (V_C quad 0) self = Ok 0).
Proof.
  intros Hh.
  assert (Hdh := Hubble_distance_nonzero self Hh).
  assert (HDM : eval (D_M quad 0) self = Ok 0).
  { rewrite (eval_D_M_value quad 0 self Hh). cbv zeta.
    rewrite quad_point, !Rmult_0_r, sinh_0, sin_0, !Rmult_0_r.
    destruct (Rlt_dec _ _); [ | destruct (Req_dec_T _ _)]; reflexivity. }
  assert (HDA : eval (D_A quad 0) self = Ok 0).
  { rewrite eval_D_A, HDM, float_div_ok by lra. f_equal. field. }
  split.
  - intros q Hq. simpl in Hq.
    destruct Hq as [<- | [<- | [<- | [<- | [<- | [<- | []]]]]]]; cbn [call].
    + rewrite eval_D_C, (eval_D_H_ok self Hh). cbn [rmap].
      rewrite quad_point. f_equal. ring.
    + exact HDM.
    + exact HDA.
    + rewrite eval_D_L, HDM. cbn [rmap]. f_equal. ring.
    + rewrite eval_dV_C, (eval_D_H_ok self Hh), HDA. cbn [rmap].
      f_equal. unfold Rdiv. ring.
    + unfold t_L. eval_body.
      rewrite eval_t_H, float_div_ok by (apply H0_nonzero, Hh).
      cbn [rmap]. eval_body. rewrite quad_point. f_equal. ring.
  - intros Hok. rewrite eval_V_C, HDM, (eval_D_H_ok self Hh). cbv zeta.
    destruct (Req_dec_T _ _); [f_equal; field | ].
    destruct (Rlt_dec _ _); [lra | ].
    f_equal.
    replace (0 / (c / (100 * h self))) with 0 by (unfold Rdiv; ring).
    rewrite !Rmult_0_l, asin_0. unfold Rdiv. ring.
Qed.

End AtZero.

(** ** Growth with redshift *)

Lemma D_C_integrable (self : Cosmos) (a b : R) :
  a <= b ->
  (forall x : R, a <= x <= b -> 0 < radicand self x) ->
  Riemann_integrable (fun x => D_C_integrand x (om self) (ol self)) a b.
Proof.
  intros Hab Hr. apply continuity_implies_RiemannInt; [exact Hab | ].
  intros x Hx. apply D_C_integrand_continuous, Hr, Hx.
Qed.

Lemma t_integrable (self : Cosmos) (a b : R) :
  0 <= a -> a <= b ->
  (forall x : R, a <= x <= b -> 0 < radicand self x) ->
  Riemann_integrable (fun x => t_integrand x (om self) (ol self)) a b.
Proof.
  intros Ha Hab Hr. apply continuity_implies_RiemannInt; [exact Hab | ].
  intros x Hx. apply t_integrand_continuous; [lra | apply Hr, Hx].
Qed.

(** The integral of a continuous positive function grows with its upper
    limit. *)
Lemma RiemannInt_increasing (f : R -> R) (z1 z2 : R)
    (pr1 : Riemann_integrable f 0 z1) (pr2 : Riemann_integrable f 0 z2) :
  0 <= z1 -> z1 < z2 ->
  (forall x : R, z1 <= x <= z2 -> continuity_pt f x) ->
  (forall x : R, z1 <= x <= z2 -> 0 < f x) ->
  RiemannInt pr1 < RiemannInt pr2.
Proof.
  intros Hz1 Hlt Hc Hp.
  assert (pr12 : Riemann_integrable f z1 z2).
  { apply RiemannInt_P23 with 0; [exact pr2 | lra]. }
  rewrite <- (RiemannInt_P26 pr1 pr12 pr2).
  pose proof (RiemannInt_pos f z1 z2 pr12 Hlt Hc Hp). lra.
Qed.

Lemma Hubble_distance_pos (self : Cosmos) :
  0 < h self -> 0 < c / (100 * h self).
Proof.
  intros Hh. unfold c, scipy_constants_c.
  apply Rdiv_lt_0_compat; lra.
Qed.

Section Monotone.

Variable quad : (R -> R) -> R -> limit -> R * R.
Hypothesis quad_is_exact : quad_exact quad.

Variable self : Cosmos.
Hypothesis h_pos : 0 < h self.
Hypothesis radicand_pos : forall x : R, 0 <= x -> 0 < radicand self x.

Lemma chi_increasing (z1 z2 : R) :
  0 <= z1 -> z1 < z2 ->
  fst (quad (fun x => D_C_integrand x (om self) (ol self)) 0 (Fin z1))
  < fst (quad (fun x => D_C_integrand x (om self) (ol self)) 0 (Fin z2)).
Proof.
  intros Hz1 Hlt. destruct quad_is_exact as [Hfin _].
  assert (pr1 : Riemann_integrable
                  (fun x => D_C_integrand x (om self) (ol self)) 0 z1).
  { apply D_C_integrable; [lra | ]. intros x Hx. apply radicand_pos. lra. }
  assert (pr2 : Riemann_integrable
                  (fun x => D_C_integrand x (om self) (ol self)) 0 z2).
  { apply D_C_integrable; [lra | ]. intros x Hx. apply radicand_pos. lra. }
  rewrite (Hfin _ 0 z1 pr1), (Hfin _ 0 z2 pr2).
  apply RiemannInt_increasing; [exact Hz1 | exact Hlt | | ]; intros x Hx.
  - apply D_C_integrand_continuous, radicand_pos. lra.
  - apply D_C_integrand_pos, radicand_pos. lra.
Qed.

Lemma chi_nonneg (z : R) :
  0 <= z ->
  0 <= fst (quad (fun x => D_C_integrand x (om self) (ol self)) 0 (Fin z)).
Proof.
  intros Hz. destruct (Req_dec_T z 0) as [-> | Hn].
  - rewrite (quad_point quad quad_is_exact). lra.
  - assert (H := chi_increasing 0 z (Rle_refl 0)).
    rewrite (quad_point quad quad_is_exact) in H. apply Rlt_le, H. lra.
Qed.

(** X8. With h100 > 0, a positive radicand of E and an exact [quad], the
    comoving distance D_C and the lookback time t_L are nonnegative and
    strictly increasing in z on z >= 0. *)
Theorem D_C_and_t_L_increasing (z1 z2 : R) :
  0 <= z1 -> z1 < z2 ->
  exists d1 d2 l1 l2 : R,
    eval (D_C quad z1) self = Ok d1
    /\ eval (D_C quad z2) self = Ok d2
    /\ eval (t_L quad z1) self = Ok l1
    /\ eval (t_L quad z2) self = Ok l2
    /\ 0 <= d1 < d2
    /\ 0 <= l1 < l2.
Proof.
  intros Hz1 Hlt.
  assert (Hh : h self <> 0) by lra.
  destruct (t_H_pos self h_pos) as [th [Hth Hthpos]].
  pose proof (Hubble_distance_pos self h_pos) as Hdh.
  destruct quad_is_exact as [Hfin _].
  assert (pr1 : Riemann_integrable
                  (fun x => t_integrand x (om self) (ol self)) 0 z1).
  { apply t_integrable; [lra | lra | ].
    intros x Hx. apply radicand_pos. lra. }
  assert (pr2 : Riemann_integrable
                  (fun x => t_integrand x (om self) (ol self)) 0 z2).
  { apply t_integrable; [lra | lra | ].
    intros x Hx. apply radicand_pos. lra. }
  assert (Ht : RiemannInt pr1 < RiemannInt pr2).
  { apply RiemannInt_increasing; [exact Hz1 | exact Hlt | | ]; intros x Hx.
    - apply t_integrand_continuous; [lra | apply radicand_pos; lra].
    - apply t_integrand_pos; [lra | apply radicand_pos; lra]. }
  assert (Ht0 : 0 <= RiemannInt pr1).
  { destruct (Req_dec_T z1 0) as [E0 | Hn].
    - subst z1. rewrite RiemannInt_P9. lra.
    - assert (H : RiemannInt
                    (RiemannInt_P7
                       (fun x => t_integrand x (om self) (ol self)) 0)
                  < RiemannInt pr1).
      { apply RiemannInt_increasing; [lra | lra | | ]; intros x Hx.
        + apply t_integrand_continuous; [lra | apply radicand_pos; lra].
        + apply t_integrand_pos; [lra | apply radicand_pos; lra]. }
      rewrite RiemannInt_P9 in H. lra. }
  pose proof (chi_increasing z1 z2 Hz1 Hlt) as Hchi.
  pose proof (chi_nonneg z1 Hz1) as Hchi0.
  rewrite !eval_D_C, (eval_D_H_ok self Hh), !(eval_t_L quad), Hth.
  cbn [rmap]. rewrite (Hfin _ 0 z1 pr1), (Hfin _ 0 z2 pr2).
  eexists. eexists. eexists. eexists.
  repeat (split; [reflexivity | ]).
  split; split.
  - apply Rmult_le_pos; lra.
  - apply Rmult_lt_compat_l; assumption.
  - apply Rmult_le_pos; lra.
  - apply Rmult_lt_compat_l; assumption.
Qed.

End Monotone.

(** ** Curvature *)

Lemma sum_inverse_ge_2 (e i : R) : 0 < e -> 0 < i -> e * i = 1 -> 2 <= e + i.
Proof.
  intros He Hi Hprod.
  assert (Hsq : 0 <= (e - i) ^ 2) by apply pow2_ge_0.
  destruct (Rle_lt_dec 2 (e + i)) as [Hle | Hgt]; [exact Hle | ].
  exfalso. assert ((e + i) ^ 2 < 2 ^ 2) by nra. nra.
Qed.

Lemma cosh_ge_1 (x : R) : 1 <= cosh x.
Proof.
  unfold cosh. pose proof (exp_pos x) as He.
  rewrite exp_Ropp.
  assert (2 <= exp x + / exp x).
  { apply sum_inverse_ge_2; [exact He | | apply Rinv_r; lra].
    apply Rinv_0_lt_compat, He. }
  lra.
Qed.

Lemma sinh_ge_x (x : R) : 0 <= x -> x <= sinh x.
Proof.
  intros Hx. destruct (Req_dec_T x 0) as [-> | Hn].
  - rewrite sinh_0. lra.
  - destruct (MVT_cor2 sinh cosh 0 x) as [k [Hk _]]; [lra | | ].
    + intros y _. apply derivable_pt_lim_sinh.
    + rewrite sinh_0, !Rminus_0_r in Hk. rewrite Hk.
      pose proof (cosh_ge_1 k). nra.
Qed.

Lemma sin_le_x (x : R) : 0 <= x -> sin x <= x.
Proof.
  intros Hx. destruct (Req_dec_T x 0) as [-> | Hn].
  - rewrite sin_0. lra.
  - apply Rlt_le, sin_lt_x. lra.
Qed.

Section Curvature.

Variable quad : (R -> R) -> R -> limit -> R * R.
Hypothesis quad_is_exact : quad_exact quad.

Variable self : Cosmos.
Hypothesis h_pos : 0 < h self.
Hypothesis radicand_pos : forall x : R, 0 <= x -> 0 < radicand self x.

(** X7. With h100 > 0, a positive radicand of E and an exact [quad]: D_C is
    nonnegative at z >= 0; the transverse distance D_M is at least D_C in an
    open cosmology, D_C itself in a flat one, and at most D_C in a closed
    one. *)
Theorem D_M_against_D_C (z : R) :
  0 <= z ->
  exists dc dm : R,
    eval (D_C quad z) self = Ok dc
    /\ eval (D_M quad z) self = Ok dm
    /\ 0 <= dc
    /\ (0 < 1 - om self - ol self -> dc <= dm)
    /\ (1 - om self - ol self = 0 -> dm = dc)
    /\ (1 - om self - ol self < 0 -> dm <= dc).
Proof.
  intros Hz. assert (Hh : h self <> 0) by lra.
  pose proof (Hubble_distance_pos self h_pos) as Hdh.
  pose proof (chi_nonneg quad quad_is_exact self radicand_pos z Hz) as HI.
  rewrite (eval_D_M_value quad z self Hh), eval_D_C, (eval_D_H_ok self Hh).
  cbn [rmap]. cbv zeta.
  set (I := fst (quad _ 0 (Fin z))) in *.
  set (dh := c / (100 * h self)) in *.
  set (ok := 1 - om self - ol self).
  eexists. eexists. split; [reflexivity | split; [reflexivity | ] ].
  split; [apply Rmult_le_pos; lra | ].
  destruct (Rlt_dec 0 ok) as [Hpos | Hnp];
    [ | destruct (Req_dec_T ok 0) as [Hz0 | Hnz] ].
  - repeat split; try (intros; lra).
    intros _.
    assert (Hs : 0 < sqrt ok) by (apply sqrt_lt_R0; exact Hpos).
    assert (Hsinh : sqrt ok * I <= sinh (sqrt ok * I)).
    { apply sinh_ge_x. apply Rmult_le_pos; lra. }
    replace (dh * I) with (dh / sqrt ok * (sqrt ok * I)) by (field; lra).
    apply Rmult_le_compat_l; [ | exact Hsinh].
    apply Rlt_le, Rdiv_lt_0_compat; assumption.
  - repeat split; intros; lra.
  - repeat split; try (intros; lra).
    intros Hneg.
    assert (Hs : 0 < sqrt (Rabs ok)).
    { apply sqrt_lt_R0, Rabs_pos_lt. exact Hnz. }
    assert (Hsin : sin (sqrt (Rabs ok) * I) <= sqrt (Rabs ok) * I).
    { apply sin_le_x. apply Rmult_le_pos; lra. }
    replace (dh * I) with (dh / sqrt (Rabs ok) * (sqrt (Rabs ok) * I))
      by (field; lra).
    apply Rmult_le_compat_l; [ | exact Hsin].
    apply Rlt_le, Rdiv_lt_0_compat; assumption.
Qed.

End Curvature.

(** ** The closed volume *)

Section ClosedVolume.

Variable quad : (R -> R) -> R -> limit -> R * R.




End ClosedVolume.

(** ** Bounds *)

Lemma radicand_ge_1 (self : Cosmos) (x : R) :
  0 <= om self -> 0 <= ol self -> om self + ol self <= 1 -> 0 <= x ->
  1 <= radicand self x.
Proof.
  intros Hom Hol Hsum Hx. unfold radicand.
  assert (H2 : 1 <= (1 + x) ^ 2) by nra.
  assert (H3 : 1 <= (1 + x) ^ 3) by nra.
  nra.
Qed.

Lemma E_ge_1 (self : Cosmos) (z : R) :
  0 <= om self -> 0 <= ol self -> om self + ol self <= 1 -> 0 <= z ->
  1 <= E z (om self) (ol self).
Proof.
  intros Hom Hol Hsum Hz. unfold E. rewrite <- sqrt_1 at 1.
  apply sqrt_le_1_alt. apply (radicand_ge_1 self z); assumption.
Qed.

Lemma inv_1_plus_antiderivative (b : R) :
  0 <= b ->
  antiderivative (fun x => / (1 + x)) (fun x => ln (1 + x)) 0 b.
Proof.
  intros Hb. split; [ | exact Hb].
  intros x Hx.
  assert (Hlim : derivable_pt_lim (fun x => ln (1 + x)) x (/ (1 + x))).
  { replace (/ (1 + x)) with (/ (1 + x) * (0 + 1)) by ring.
    apply (derivable_pt_lim_comp (fct_cte 1 + id)%F ln).
    - apply derivable_pt_lim_plus;
        [apply derivable_pt_lim_const | apply derivable_pt_lim_id].
    - apply derivable_pt_lim_ln. unfold plus_fct, fct_cte, id. lra. }
  exists (exist _ _ Hlim). reflexivity.
Qed.

Lemma inv_1_plus_continuous (x : R) :
  0 <= x -> continuity_pt (fun x => / (1 + x)) x.
Proof. intros Hx. reg. lra. Qed.

Section Bounds.

Variable quad : (R -> R) -> R -> limit -> R * R.
Hypothesis quad_is_exact : quad_exact quad.

(** X10. With nonnegative densities, Omega_m + Omega_Lambda <= 1, h100 > 0
    and an exact [quad], at z >= 0: E(z) >= 1, the comoving distance is at
    most the Hubble-law distance D_H z, the lookback time is at most
    t_H ln(1+z), and dP is positive and at most D_H (1+z)^2. *)
Theorem Hubble_law_bounds (self : Cosmos) (z : R) :
  0 < h self ->
  0 <= om self -> 0 <= ol self -> om self + ol self <= 1 ->
  0 <= z ->
  1 <= E z (om self) (ol self)
  /\ exists dh th dc tl p : R,
      eval D_H self = Ok dh
      /\ eval t_H self = Ok th
      /\ eval (D_C quad z) self = Ok dc
      /\ eval (t_L quad z) self = Ok tl
      /\ eval (dP z) self = Ok p
      /\ 0 <= dc <= dh * z
      /\ 0 <= tl <= th * ln (1 + z)
      /\ 0 < p <= dh * (1 + z) ^ 2.
Proof.
  intros Hh Hom Hol Hsum Hz.
  assert (HE := E_ge_1 self z Hom Hol Hsum Hz).
  split; [exact HE | ].
  assert (Hn : h self <> 0) by lra.
  assert (Hrad : forall x, 0 <= x -> 0 < radicand self x).
  { intros x Hx. pose proof (radicand_ge_1 self x Hom Hol Hsum Hx). lra. }
  destruct (t_H_pos self Hh) as [th [Hth Hthpos]].
  pose proof (Hubble_distance_pos self Hh) as Hdh.
  destruct quad_is_exact as [Hfin _].
  (* the integrand of D_C lies between 0 and 1 *)
  assert (prc : Riemann_integrable
                  (fun x => D_C_integrand x (om self) (ol self)) 0 z).
  { apply D_C_integrable; [exact Hz | ]. intros x Hx. apply Hrad. lra. }
  assert (Hc : 0 * (z - 0) <= RiemannInt prc <= 1 * (z - 0)).
  { apply RiemannInt_const_bound; [exact Hz | ]. intros x Hx.
    assert (H1 : 1 <= E x (om self) (ol self))
      by (apply E_ge_1; try assumption; lra).
    unfold D_C_integrand. fold (E x (om self) (ol self)).
    split.
    - apply Rlt_le, Rdiv_lt_0_compat; lra.
    - apply Rmult_le_reg_r with (E x (om self) (ol self)); [lra | ].
      unfold Rdiv. rewrite Rmult_assoc, Rinv_l by lra. lra. }
  (* the integrand of t_L lies between 0 and 1/(1+x) *)
  assert (prt : Riemann_integrable
                  (fun x => t_integrand x (om self) (ol self)) 0 z).
  { apply t_integrable; [lra | exact Hz | ].
    intros x Hx. apply Hrad. lra. }
  assert (prg : Riemann_integrable (fun x => / (1 + x)) 0 z).
  { apply continuity_implies_RiemannInt; [exact Hz | ].
    intros x Hx. apply inv_1_plus_continuous. lra. }
  assert (Ht1 : RiemannInt prt <= ln (1 + z)).
  { replace (ln (1 + z)) with (RiemannInt prg).
    - apply RiemannInt_P19; [exact Hz | ]. intros x Hx.
      assert (H1 : 1 <= E x (om self) (ol self))
        by (apply E_ge_1; try assumption; lra).
      unfold t_integrand. fold (E x (om self) (ol self)).
      assert (Hi : 0 < / (1 + x)) by (apply Rinv_0_lt_compat; lra).
      unfold Rdiv. rewrite Rmult_1_l.
      rewrite <- (Rmult_1_r (/ (1 + x))) at 2.
      apply Rmult_le_compat_l; [lra | ].
      rewrite <- Rinv_1. apply Rinv_le_contravar; lra.
    - rewrite (RiemannInt_antiderivative _ (fun x => ln (1 + x)) 0 z).
      + rewrite Rplus_0_r, ln_1. ring.
      + intros x Hx. apply inv_1_plus_continuous. lra.
      + apply inv_1_plus_antiderivative, Hz. }
  assert (Ht0 : 0 <= RiemannInt prt).
  { assert (Hb : 0 * (z - 0) <= RiemannInt prt <= 1 * (z - 0));
      [ | lra].
    apply RiemannInt_const_bound; [exact Hz | ].
    intros x Hx.
    pose proof (t_integrand_pos self x (Rlt_le _ _ (proj1 Hx))
                  (Hrad x (Rlt_le _ _ (proj1 Hx)))) as Hp.
    split; [lra | ].
    assert (H1 : 1 <= E x (om self) (ol self))
      by (apply E_ge_1; try assumption; lra).
    unfold t_integrand. fold (E x (om self) (ol self)).
    assert (Hi : 0 < / (1 + x)) by (apply Rinv_0_lt_compat; lra).
    assert (Hi1 : / (1 + x) <= 1).
    { rewrite <- Rinv_1. apply Rinv_le_contravar; lra. }
    assert (Hie : / E x (om self) (ol self) <= 1).
    { rewrite <- Rinv_1. apply Rinv_le_contravar; lra. }
    assert (0 < / E x (om self) (ol self)) by (apply Rinv_0_lt_compat; lra).
    unfold Rdiv. rewrite Rmult_1_l. nra. }
  rewrite eval_D_C, (eval_D_H_ok self Hn), (eval_t_L quad), eval_dP, Hth,
    (eval_D_H_ok self Hn).
  cbn [rmap]. rewrite (Hfin _ 0 z prc), (Hfin _ 0 z prt).
  eexists. eexists. eexists. eexists. eexists.
  repeat (split; [reflexivity | ]).
  split; [ | split].
  - split; [apply Rmult_le_pos; lra | ].
    apply Rmult_le_compat_l; lra.
  - split; [apply Rmult_le_pos; lra | ].
    apply Rmult_le_compat_l; lra.
  - assert (Hu : 0 < c / (100 * h self) * (1 + z) ^ 2).
    { apply Rmult_lt_0_compat; [exact Hdh | apply pow_lt; lra]. }
    split.
    + apply Rdiv_lt_0_compat; lra.
    + apply Rmult_le_reg_r with (E z (om self) (ol self)); [lra | ].
      unfold Rdiv. rewrite Rmult_assoc, Rinv_l by lra. nra.
Qed.

End Bounds.

(** ** The age *)

(** A convergent integral of a continuous positive function is positive. *)
Lemma improper_integral_pos (f : R -> R) (a : R)
    (pr : integrable_from f a) (L : R) :
  improper_integral f a pr L ->
  (forall x : R, a <= x -> continuity_pt f x) ->
  (forall x : R, a <= x -> 0 < f x) ->
  0 < L.
Proof.
  intros HL Hc Hp.
  assert (Ha1 : a <= a + 1) by lra.
  assert (Hd : 0 < RiemannInt (pr (a + 1) Ha1)).
  { apply RiemannInt_pos; [lra | | ]; intros x Hx; [apply Hc | apply Hp]; lra. }
  destruct (Rlt_le_dec L (RiemannInt (pr (a + 1) Ha1))) as [Hlt | Hge];
    [ | lra].
  exfalso.
  destruct (HL (RiemannInt (pr (a + 1) Ha1) - L)) as [B [HB HC]]; [lra | ].
  assert (Hb : a <= Rmax B (a + 1)).
  { apply Rle_trans with (a + 1); [lra | apply Rmax_r]. }
  specialize (HC _ Hb (Rmax_l _ _)).
  assert (Hb1 : a + 1 <= Rmax B (a + 1)) by apply Rmax_r.
  assert (pr2 : Riemann_integrable f (a + 1) (Rmax B (a + 1))).
  { apply RiemannInt_P23 with a; [apply pr, Hb | lra]. }
  assert (H2 : 0 <= RiemannInt pr2).
  { destruct (Req_dec_T (a + 1) (Rmax B (a + 1))) as [Heq | Hne].
    - assert (Hb2 : 0 * (Rmax B (a + 1) - (a + 1)) <= RiemannInt pr2
                    <= 0 * (Rmax B (a + 1) - (a + 1))); [ | lra].
      revert pr2. rewrite <- Heq. intros pr2. rewrite RiemannInt_P9. lra.
    - apply Rlt_le, RiemannInt_pos; [lra | | ]; intros x Hx;
        [apply Hc | apply Hp]; lra. }
  rewrite <- (RiemannInt_P26 (pr (a + 1) Ha1) pr2 (pr _ Hb)) in HC.
  apply Rabs_def2 in HC. lra.
Qed.

Section Age.

Variable quad : (R -> R) -> R -> limit -> R * R.
Hypothesis quad_is_exact : quad_exact quad.

(** X11. With h100 > 0, a positive radicand of E, a convergent age integral
    and an exact [quad], at every z >= 0 the age t(z) is positive and at most
    the present age t(0), and the lookback time is nonnegative and less than
    the present age. *)
Theorem age_positive_lookback_below_age (self : Cosmos) (z : R) :
  0 < h self ->
  (forall x : R, 0 <= x -> 0 < radicand self x) ->
  (exists (pr : integrable_from (fun x => t_integrand x (om self) (ol self)) 0)
          (L : R),
      improper_integral (fun x => t_integrand x (om self) (ol self)) 0 pr L) ->
  0 <= z ->
  exists a tl age : R,
    eval (t quad z) self = Ok a
    /\ eval (t_L quad z) self = Ok tl
    /\ eval (t quad 0) self = Ok age
    /\ 0 < a <= age
    /\ 0 <= tl < age.
Proof.
  intros Hh Hrad [pr0 [L HL]] Hz.
  destruct quad_is_exact as [Hfin Hinf].
  destruct (t_H_pos self Hh) as [th [Hth Hpos]].
  set (f := fun x => t_integrand x (om self) (ol self)) in *.
  assert (Hc : forall x, 0 <= x -> continuity_pt f x).
  { intros x Hx. apply t_integrand_continuous; [exact Hx | apply Hrad, Hx]. }
  assert (Hp : forall x, 0 <= x -> 0 < f x).
  { intros x Hx. apply t_integrand_pos; [exact Hx | apply Hrad, Hx]. }
  destruct (improper_integral_tail f z pr0 L Hz HL) as [prz Hprz].
  assert (Htail : 0 < L - RiemannInt (pr0 z Hz)).
  { apply (improper_integral_pos f z prz _ Hprz); intros x Hx;
      [apply Hc | apply Hp]; lra. }
  assert (HI : 0 <= RiemannInt (pr0 z Hz)).
  { destruct (Req_dec_T z 0) as [E0 | Hn].
    - assert (H0 : forall (y : R) (pr : Riemann_integrable f 0 y),
                 y = 0 -> RiemannInt pr = 0).
      { intros y pr ->. apply RiemannInt_P9. }
      rewrite (H0 z _ E0). lra.
    - apply Rlt_le, RiemannInt_pos; [lra | | ]; intros x Hx;
        [apply Hc | apply Hp]; lra. }
  rewrite !(eval_t quad), (eval_t_L quad), Hth. cbn [rmap]. fold f.
  rewrite (Hinf f z prz _ Hprz), (Hinf f 0 pr0 L HL), (Hfin f 0 z (pr0 z Hz)).
  eexists. eexists. eexists.
  repeat (split; [reflexivity | ]).
  split; split.
  - apply Rmult_lt_0_compat; assumption.
  - apply Rmult_le_compat_l; lra.
  - apply Rmult_le_pos; lra.
  - apply Rmult_lt_compat_l; lra.
Qed.

End Age.

(** ** Growth of the transverse and luminosity distances *)

Lemma log10_increasing (x y : R) : 0 < x -> x < y -> log10 x < log10 y.
Proof.
  intros Hx Hxy. unfold log10, Rdiv.
  apply Rmult_lt_compat_r.
  - apply Rinv_0_lt_compat, ln_10_pos.
  - apply ln_increasing; assumption.
Qed.

Section Growth.

Variable quad : (R -> R) -> R -> limit -> R * R.
Hypothesis quad_is_exact : quad_exact quad.

Variable self : Cosmos.
Hypothesis h_pos : 0 < h self.
Hypothesis radicand_pos : forall x : R, 0 <= x -> 0 < radicand self x.

(** X9. In a flat or open cosmology (Omega_k >= 0), with h100 > 0, a
    positive radicand of E and an exact [quad], D_M and D_L are nonnegative
    and strictly increasing in z on z >= 0, and the distance modulus DM is
    strictly increasing on z > 0. *)
Theorem D_M_D_L_DM_increasing_unless_closed (z1 z2 : R) :
  0 <= 1 - om self - ol self ->
  0 <= z1 -> z1 < z2 ->
  exists m1 m2 l1 l2 mu1 mu2 : R,
    eval (D_M quad z1) self = Ok m1
    /\ eval (D_M quad z2) self = Ok m2
    /\ eval (D_L quad z1) self = Ok l1
    /\ eval (D_L quad z2) self = Ok l2
    /\ eval (DM quad z1) self = Ok mu1
    /\ eval (DM quad z2) self = Ok mu2
    /\ 0 <= m1 < m2
    /\ 0 <= l1 < l2
    /\ (0 < z1 -> mu1 < mu2).
Proof.
  intros Hok Hz1 Hlt. assert (Hh : h self <> 0) by lra.
  pose proof (Hubble_distance_pos self h_pos) as Hdh.
  pose proof (chi_nonneg quad quad_is_exact self radicand_pos z1 Hz1) as HI.
  pose proof (chi_increasing quad quad_is_exact self radicand_pos z1 z2
                Hz1 Hlt) as Hinc.
  assert (HI1 : 0 < z1 ->
                0 < fst (quad (fun x => D_C_integrand x (om self) (ol self))
                              0 (Fin z1))).
  { intros Hp.
    pose proof (chi_increasing quad quad_is_exact self radicand_pos 0 z1
                  (Rle_refl 0) Hp) as H.
    rewrite (quad_point quad quad_is_exact) in H. exact H. }
  rewrite !eval_DM, !eval_D_L, !(eval_D_M_value quad _ self Hh).
  cbn [rmap]. cbv zeta.
  set (I1 := fst (quad _ 0 (Fin z1))) in *.
  set (I2 := fst (quad _ 0 (Fin z2))) in *.
  set (dh := c / (100 * h self)) in *.
  set (ok := 1 - om self - ol self) in *.
  do 6 eexists.
  repeat (split; [reflexivity | ]).
  assert (Hm : forall m1 m2 : R, 0 <= m1 < m2 -> (0 < z1 -> 0 < m1) ->
               0 <= m1 < m2
               /\ 0 <= (1 + z1) * m1 < (1 + z2) * m2
               /\ (0 < z1 ->
                   5 * log10 ((1 + z1) * m1 * 1e6 / 10)
                   < 5 * log10 ((1 + z2) * m2 * 1e6 / 10))).
  { intros m1 m2 Hb Hp. split; [exact Hb | split; [nra | ] ].
    intros Hz. specialize (Hp Hz).
    assert (0 < (1 + z1) * m1) by nra.
    assert ((1 + z1) * m1 < (1 + z2) * m2) by nra.
    assert (log10 ((1 + z1) * m1 * 1e6 / 10)
            < log10 ((1 + z2) * m2 * 1e6 / 10))
      by (apply log10_increasing; lra).
    lra. }
  destruct (Rlt_dec 0 ok) as [Hpos | Hnp];
    [ | destruct (Req_dec_T ok 0) as [Hz0 | Hnz]; [ | lra] ].
  - assert (Hs : 0 < sqrt ok) by (apply sqrt_lt_R0; exact Hpos).
    assert (Hk : 0 < dh / sqrt ok) by (apply Rdiv_lt_0_compat; assumption).
    assert (H1 : 0 <= sinh (sqrt ok * I1)).
    { rewrite <- sinh_0.
      destruct (Req_dec_T (sqrt ok * I1) 0) as [-> | Hn]; [lra | ].
      apply Rlt_le, sinh_lt.
      assert (0 <= sqrt ok * I1) by (apply Rmult_le_pos; lra). lra. }
    assert (H1' : 0 < z1 -> 0 < sinh (sqrt ok * I1)).
    { intros Hp. rewrite <- sinh_0. apply sinh_lt.
      apply Rmult_lt_0_compat; [exact Hs | apply HI1, Hp]. }
    assert (H2 : sinh (sqrt ok * I1) < sinh (sqrt ok * I2)).
    { apply sinh_lt. apply Rmult_lt_compat_l; assumption. }
    apply Hm.
    + split; [apply Rmult_le_pos; lra | ].
      apply Rmult_lt_compat_l; assumption.
    + intros Hp. apply Rmult_lt_0_compat; [exact Hk | apply H1', Hp].
  - apply Hm.
    + split; [apply Rmult_le_pos; lra | ].
      apply Rmult_lt_compat_l; assumption.
    + intros Hp. apply Rmult_lt_0_compat; [exact Hdh | apply HI1, Hp].
Qed.

End Growth.

(** ** More on the sample cosmologies *)

Lemma closed_radicand (x : R) : 0 <= x -> 1 <= radicand Cosmos_closed x.
Proof.
  intros Hx. unfold radicand, Cosmos_closed. cbn [om ol].
  assert (H2 : 0 <= (1 + x) ^ 2) by apply pow2_ge_0.
  replace (0.5 * (1 + x) ^ 3 + (1 - 0.5 - 1) * (1 + x) ^ 2 + 1)
    with (0.5 * ((1 + x) ^ 2 * x) + 1) by ring.
  assert (0 <= (1 + x) ^ 2 * x) by (apply Rmult_le_pos; assumption).
  lra.
Qed.

Lemma closed_radicand_pos (x : R) : 0 <= x -> 0 < radicand Cosmos_closed x.
Proof. intros Hx. pose proof (closed_radicand x Hx). lra. Qed.

Lemma default_h_pos : 0 < h Cosmos_default.
Proof. cbn. unfold default_h_100. lra. Qed.

Lemma default_flat : om Cosmos_default + ol Cosmos_default = 1.
Proof. cbn. unfold default_omega_matter, default_omega_lambda. lra. Qed.


(** ** Instances of the further properties *)

Lemma distances_vanish_at_zero_witness :
  quad_exact ideal_quad
  /\ h Cosmos_default <> 0
  /\ (forall q : query,
        In q [Q_D_C; Q_D_M; Q_D_A; Q_D_L; Q_dV_C; Q_t_L] ->
        eval (call ideal_quad q 0) Cosmos_default = Ok 0)
  /\ (1 - om Cosmos_default - ol Cosmos_default <= 0 ->
      eval (V_C ideal_quad 0) Cosmos_default = Ok 0).
Proof.
  split; [exact ideal_quad_exact | ].
  split; [exact default_h_nonzero | ].
  exact (distances_vanish_at_zero ideal_quad ideal_quad_exact Cosmos_default
           default_h_nonzero).
Defined.

Lemma V_C_flat_is_ball_volume_witness :
  om Cosmos_default + ol Cosmos_default = 1
  /\ V_C ideal_quad 1 Cosmos_default =
     (_D_C <- D_C ideal_quad 1 ;; ret (4 * PI * _D_C ^ 3 / 3)) Cosmos_default
  /\ (h Cosmos_default <> 0 ->
      exists v : R, eval (V_C ideal_quad 1) Cosmos_default = Ok v).
Proof.
  split; [exact default_flat | ].
  exact (V_C_flat_is_ball_volume ideal_quad Cosmos_default 1 default_flat).
Defined.


Lemma Hubble_scales_with_h_witness :
  h Cosmos_default <> 0
  /\ exists dh th : R,
      eval D_H Cosmos_default = Ok dh
      /\ eval t_H Cosmos_default = Ok th
      /\ h Cosmos_default * dh = 2997.92458
      /\ 9.777 < h Cosmos_default * th < 9.779.
Proof.
  split; [exact default_h_nonzero | ].
  exact (Hubble_scales_with_h Cosmos_default default_h_nonzero).
Defined.

Lemma distances_scale_inversely_with_h_witness :
  om Cosmos_default = om Cosmos_h1
  /\ ol Cosmos_default = ol Cosmos_h1
  /\ h Cosmos_default <> 0
  /\ h Cosmos_h1 <> 0
  /\ 0 <= 1
  /\ forall q : query, In q [Q_D_H; Q_D_C; Q_D_M; Q_D_A; Q_D_L] ->
      exists d1 d2 : R,
        eval (call ideal_quad q 1) Cosmos_default = Ok d1
        /\ eval (call ideal_quad q 1) Cosmos_h1 = Ok d2
        /\ h Cosmos_default * d1 = h Cosmos_h1 * d2.
Proof.
  assert (H2 : h Cosmos_h1 <> 0) by (cbn; lra).
  assert (Hz : 0 <= 1) by lra.
  split; [reflexivity | split; [reflexivity | ] ].
  split; [exact default_h_nonzero | split; [exact H2 | split; [exact Hz | ] ] ].
  exact (distances_scale_inversely_with_h ideal_quad 1 Cosmos_default
           Cosmos_h1 eq_refl eq_refl default_h_nonzero H2 Hz).
Defined.

Lemma DM_shift_with_h_witness :
  om Cosmos_default = om Cosmos_h1
  /\ ol Cosmos_default = ol Cosmos_h1
  /\ 0 < h Cosmos_default
  /\ 0 < h Cosmos_h1
  /\ eval (D_L ideal_quad 1) Cosmos_default =
     Ok ((1 + 1) * (c / (100 * h Cosmos_default)
                    * RiemannInt default_integrable))
  /\ 0 < (1 + 1) * (c / (100 * h Cosmos_default)
                    * RiemannInt default_integrable)
  /\ exists mu1 mu2 : R,
      eval (DM ideal_quad 1) Cosmos_default = Ok mu1
      /\ eval (DM ideal_quad 1) Cosmos_h1 = Ok mu2
      /\ mu2 - mu1 = 5 * log10 (h Cosmos_default / h Cosmos_h1).
Proof.
  assert (H2 : 0 < h Cosmos_h1) by (cbn; lra).
  split; [reflexivity | split; [reflexivity | ] ].
  split; [exact default_h_pos | split; [exact H2 | ] ].
  split; [exact eval_D_L_default | split; [exact D_L_default_pos | ] ].
  exact (DM_shift_with_h ideal_quad 1 Cosmos_default Cosmos_h1 _
           eq_refl eq_refl default_h_pos H2 eval_D_L_default
           D_L_default_pos).
Defined.

Lemma D_A_D_L_bracket_D_M_witness :
  h Cosmos_open <> 0
  /\ 0 <= 1
  /\ exists dm da dl : R,
      eval (D_M ideal_quad 1) Cosmos_open = Ok dm
      /\ eval (D_A ideal_quad 1) Cosmos_open = Ok da
      /\ eval (D_L ideal_quad 1) Cosmos_open = Ok dl
      /\ da * dl = dm ^ 2
      /\ (0 <= dm -> da <= dm <= dl).
Proof.
  assert (Hh : h Cosmos_open <> 0) by (cbn; lra).
  assert (Hz : 0 <= 1) by lra.
  split; [exact Hh | split; [exact Hz | ] ].
  exact (D_A_D_L_bracket_D_M ideal_quad Cosmos_open 1 Hh Hz).
Defined.


Lemma D_C_and_t_L_increasing_witness :
  quad_exact ideal_quad
  /\ 0 < h Cosmos_default
  /\ (forall x : R, 0 <= x -> 0 < radicand Cosmos_default x)
  /\ 0 <= 1
  /\ 1 < 2
  /\ exists d1 d2 l1 l2 : R,
      eval (D_C ideal_quad 1) Cosmos_default = Ok d1
      /\ eval (D_C ideal_quad 2) Cosmos_default = Ok d2
      /\ eval (t_L ideal_quad 1) Cosmos_default = Ok l1
      /\ eval (t_L ideal_quad 2) Cosmos_default = Ok l2
      /\ 0 <= d1 < d2
      /\ 0 <= l1 < l2.
Proof.
  assert (H1 : 0 <= 1) by lra. assert (H2 : 1 < 2) by lra.
  split; [exact ideal_quad_exact | split; [exact default_h_pos | ] ].
  split; [exact default_radicand | split; [exact H1 | split; [exact H2 | ] ] ].
  exact (D_C_and_t_L_increasing ideal_quad ideal_quad_exact Cosmos_default
           default_h_pos default_radicand 1 2 H1 H2).
Defined.

Lemma D_M_against_D_C_witness :
  quad_exact ideal_quad
  /\ 0 < h Cosmos_closed
  /\ (forall x : R, 0 <= x -> 0 < radicand Cosmos_closed x)
  /\ 0 <= 1
  /\ exists dc dm : R,
      eval (D_C ideal_quad 1) Cosmos_closed = Ok dc
      /\ eval (D_M ideal_quad 1) Cosmos_closed = Ok dm
      /\ 0 <= dc
      /\ (0 < 1 - om Cosmos_closed - ol Cosmos_closed -> dc <= dm)
      /\ (1 - om Cosmos_closed - ol Cosmos_closed = 0 -> dm = dc)
      /\ (1 - om Cosmos_closed - ol Cosmos_closed < 0 -> dm <= dc).
Proof.
  assert (Hh : 0 < h Cosmos_closed) by (cbn; lra).
  assert (Hz : 0 <= 1) by lra.
  split; [exact ideal_quad_exact | split; [exact Hh | ] ].
  split; [exact closed_radicand_pos | split; [exact Hz | ] ].
  exact (D_M_against_D_C ideal_quad ideal_quad_exact Cosmos_closed Hh
           closed_radicand_pos 1 Hz).
Defined.

Lemma D_M_D_L_DM_increasing_unless_closed_witness :
  quad_exact ideal_quad
  /\ 0 < h Cosmos_default
  /\ (forall x : R, 0 <= x -> 0 < radicand Cosmos_default x)
  /\ 0 <= 1 - om Cosmos_default - ol Cosmos_default
  /\ 0 <= 1
  /\ 1 < 2
  /\ exists m1 m2 l1 l2 mu1 mu2 : R,
      eval (D_M ideal_quad 1) Cosmos_default = Ok m1
      /\ eval (D_M ideal_quad 2) Cosmos_default = Ok m2
      /\ eval (D_L ideal_quad 1) Cosmos_default = Ok l1
      /\ eval (D_L ideal_quad 2) Cosmos_default = Ok l2
      /\ eval (DM ideal_quad 1) Cosmos_default = Ok mu1
      /\ eval (DM ideal_quad 2) Cosmos_default = Ok mu2
      /\ 0 <= m1 < m2
      /\ 0 <= l1 < l2
      /\ (0 < 1 -> mu1 < mu2).
Proof.
  assert (Hok : 0 <= 1 - om Cosmos_default - ol Cosmos_default).
  { pose proof default_flat. lra. }
  assert (H1 : 0 <= 1) by lra. assert (H2 : 1 < 2) by lra.
  split; [exact ideal_quad_exact | split; [exact default_h_pos | ] ].
  split; [exact default_radicand | split; [exact Hok | ] ].
  split; [exact H1 | split; [exact H2 | ] ].
  exact (D_M_D_L_DM_increasing_unless_closed ideal_quad ideal_quad_exact
           Cosmos_default default_h_pos default_radicand 1 2 Hok H1 H2).
Defined.



Lemma Hubble_law_bounds_witness :
  quad_exact ideal_quad
  /\ 0 < h Cosmos_default
  /\ 0 <= om Cosmos_default
  /\ 0 <= ol Cosmos_default
  /\ om Cosmos_default + ol Cosmos_default <= 1
  /\ 0 <= 1
  /\ 1 <= E 1 (om Cosmos_default) (ol Cosmos_default)
  /\ exists dh th dc tl p : R,
      eval D_H Cosmos_default = Ok dh
      /\ eval t_H Cosmos_default = Ok th
      /\ eval (D_C ideal_quad 1) Cosmos_default = Ok dc
      /\ eval (t_L ideal_quad 1) Cosmos_default = Ok tl
      /\ eval (dP 1) Cosmos_default = Ok p
      /\ 0 <= dc <= dh * 1
      /\ 0 <= tl <= th * ln (1 + 1)
      /\ 0 < p <= dh * (1 + 1) ^ 2.
Proof.
  assert (Hom : 0 <= om Cosmos_default)
    by (cbn; unfold default_omega_matter; lra).
  assert (Hol : 0 <= ol Cosmos_default)
    by (cbn; unfold default_omega_lambda; lra).
  assert (Hs : om Cosmos_default + ol Cosmos_default <= 1).
  { pose proof default_flat. lra. }
  assert (Hz : 0 <= 1) by lra.
  split; [exact ideal_quad_exact | split; [exact default_h_pos | ] ].
  split; [exact Hom | split; [exact Hol | split; [exact Hs | ] ] ].
  split; [exact Hz | ].
  exact (Hubble_law_bounds ideal_quad ideal_quad_exact Cosmos_default 1
           default_h_pos Hom Hol Hs Hz).
Defined.

Lemma age_positive_lookback_below_age_witness :
  quad_exact ideal_quad
  /\ 0 < h Cosmos_Milne
  /\ (forall x : R, 0 <= x -> 0 < radicand Cosmos_Milne x)
  /\ (exists (pr : integrable_from
                     (fun x => t_integrand x (om Cosmos_Milne)
                                 (ol Cosmos_Milne)) 0)
             (L : R),
         improper_integral
           (fun x => t_integrand x (om Cosmos_Milne) (ol Cosmos_Milne))
           0 pr L)
  /\ 0 <= 1
  /\ exists a tl age : R,
      eval (t ideal_quad 1) Cosmos_Milne = Ok a
      /\ eval (t_L ideal_quad 1) Cosmos_Milne = Ok tl
      /\ eval (t ideal_quad 0) Cosmos_Milne = Ok age
      /\ 0 < a <= age
      /\ 0 <= tl < age.
Proof.
  assert (Hh : 0 < h Cosmos_Milne) by (cbn; lra).
  assert (Hc : exists (pr : integrable_from
                     (fun x => t_integrand x (om Cosmos_Milne)
                                 (ol Cosmos_Milne)) 0)
             (L : R),
         improper_integral
           (fun x => t_integrand x (om Cosmos_Milne) (ol Cosmos_Milne))
           0 pr L)
    by (exists Milne_integrable, 1; exact Milne_age_converges).
  assert (Hz : 0 <= 1) by lra.
  split; [exact ideal_quad_exact | split; [exact Hh | ] ].
  split; [exact Milne_radicand | split; [exact Hc | split; [exact Hz | ] ] ].
  exact (age_positive_lookback_below_age ideal_quad ideal_quad_exact
           Cosmos_Milne 1 Hh Milne_radicand Hc Hz).
Defined.

